(** * EdgeBasedRegistration: loop preparation and loop processing

    A shallow embedding of [src/core/registration/edgebasedregistration.hpp].

    - [uint] values are integers in [0, 2^32) with the wrap-around written
      out ([to_uint]).
    - [std::vector] is a list; [v[i]] outside the vector is undefined
      behaviour in C++ and is the outcome [Undefined] here.
    - Exceptions are the outcome [Throw]; the member [loops] and the calls
      made to the collaborators (frame iterator, filters, aligners,
      correctors, visualisation) are threaded through a state.
    - [Eigen::Matrix4f], [Frame], [KeypointsFrame], the fitness score type
      and the collaborators themselves are declared in headers that are not
      part of the sources at hand: they are the classes [Types] and
      [Collaborators]. *)

From stdpp Require Import base list numbers strings sorting.

Local Open Scope Z_scope.

(** ** Unsigned 32-bit integers *)

Definition uint_modulus : Z := 2 ^ 32.

Definition to_uint (z : Z) : Z := z `mod` uint_modulus.

Definition is_uint (z : Z) : Prop := 0 ≤ z < uint_modulus.

(** ** Outcomes of a call *)

Inductive exception : Type :=
| invalid_argument (what : string)
| runtime_error (what : string).

Inductive outcome (A : Type) : Type :=
| Ok (a : A)
| Throw (e : exception)
| Undefined
| OutOfFuel.

Arguments Ok {A} a.
Arguments Throw {A} e.
Arguments Undefined {A}.
Arguments OutOfFuel {A}.

(** Calls made to the collaborators, in program order. *)
Inductive event : Type :=
| ev_Iter (from to step : Z)
| ev_balance
| ev_filter
| ev_sac_align
| ev_icp_align
| ev_elch_correct
| ev_lum_correct
| ev_vizualization
| ev_loops_data_vizualization.

Definition is_alignment (e : event) : bool :=
  match e with
  | ev_sac_align | ev_icp_align => true
  | _ => false
  end.

Definition is_correction (e : event) : bool :=
  match e with
  | ev_elch_correct | ev_lum_correct => true
  | _ => false
  end.

(** The configuration read by the class: the member [loop_size] (an
    [int]), the members [read_from], [read_to] and [read_step] of the base
    class (compared and added with [uint]s, hence taken as [uint]s), and
    the two boolean settings. *)
Record Config : Type := {
  loop_size : Z;
  read_from : Z;
  read_to : Z;
  read_step : Z;
  EDGE_BASED_RECONSTRUCTION_EDGE_BALANCING : bool;
  EDGE_BASED_RECONSTRUCTION_ELCH_LUM : bool
}.

(** The types the class works with: [Frame], [KeypointsFrame],
    [Eigen::Matrix4f] and the type of a fitness score. *)
Class Types : Type := {
  Frame : Type;
  KeypointsFrame : Type;
  Matrix4f : Type;
  Score : Type
}.

Section EdgeBasedRegistration.

Context {T : Types}.

(** ** struct Loop *)

Record Loop : Type := {
  inner_transformations : list Matrix4f;
  inner_t_fitness_scores : list Score;
  edge_frames_indexes : Z * Z;
  edge_frames : Frame * Frame;
  edge_keypoints : KeypointsFrame;
  edge_transformations : Matrix4f * Matrix4f
}.

(** ** Collaborators

    What a [LinearRegistration<...>] object holds after [align]: the
    returned transformations, the frames written to the output argument,
    and what the getters return. *)
Record Registration : Type := {
  reg_align : list Matrix4f;
  reg_transformed_frames : list Frame;
  reg_getKeypoints : list KeypointsFrame;
  reg_getTransformedKeypoints : list KeypointsFrame;
  reg_getFitnessScores : list Score
}.

(** What a [Correction<...>] object holds after [correct]. *)
Record Correction : Type := {
  cor_correct : list Matrix4f;
  cor_transformed_frames : list Frame;
  cor_getTransformedKeypoints : list KeypointsFrame
}.

(** The interface of what the class calls:
    - [Frame_default] and [KeypointsFrame_default] are the
      default-constructed values, [Identity] is
      [Eigen::Matrix4f::Identity()] and [mmul] the matrix product;
    - [Iter from to step] is the sequence of frames the input iterator
      built with these arguments goes through;
    - [balance] is [EdgeBalancer::balance], which returns [uint]
      positions;
    - [PcdFilters_filter] is [PcdFilters::filter];
    - [sac] and [icp] are the two [LinearRegistration]s, applied to what
      [setInput] and [setKeypoints] set;
    - [elch] and [lum] are the two [Correction]s, applied to what
      [setInput] sets. *)
Class Collaborators : Type := {
  Frame_default : Frame;
  KeypointsFrame_default : KeypointsFrame;
  Identity : Matrix4f;
  mmul : Matrix4f → Matrix4f → Matrix4f;
  Iter : Z → Z → Z → list Frame;
  balance : list Frame → Z → list Z;
  PcdFilters_filter : list Frame → list Frame;
  sac : list Frame → Matrix4f → Registration;
  icp : list Frame → Matrix4f → list KeypointsFrame → Registration;
  elch : list Frame → list KeypointsFrame → list Matrix4f →
         KeypointsFrame → Correction;
  lum : list Frame → list KeypointsFrame → list Matrix4f →
        KeypointsFrame → Correction
}.

Context {collab : Collaborators}.

(** [Loop::Loop(start_loop_frame_index, end_loop_frame_index)]: the
    difference is taken on [uint]. *)
Definition Loop_Loop (start_loop_frame_index end_loop_frame_index : Z)
  : outcome Loop :=
  if to_uint (end_loop_frame_index - start_loop_frame_index) =? 0 then
    Throw (invalid_argument "Loop loop_size == 0")
  else
    Ok {| inner_transformations := [];
          inner_t_fitness_scores := [];
          edge_frames_indexes :=
            (start_loop_frame_index, end_loop_frame_index);
          edge_frames := (Frame_default, Frame_default);
          edge_keypoints := KeypointsFrame_default;
          edge_transformations := (Identity, Identity) |}.

(** ** State and the monad of member functions *)

Record state : Type := {
  loops : list Loop;
  trace : list event
}.

Definition M (A : Type) : Type := state → outcome A * state.

#[global] Instance M_ret : MRet M := λ A a s, (Ok a, s).

#[global] Instance M_bind : MBind M := λ A B k m s,
  match m s with
  | (Ok a, s') => k a s'
  | (Throw e, s') => (Throw e, s')
  | (Undefined, s') => (Undefined, s')
  | (OutOfFuel, s') => (OutOfFuel, s')
  end.

Definition lift {A} (o : outcome A) : M A := λ s, (o, s).

Definition throw {A} (e : exception) : M A := lift (Throw e).

Definition get_loops : M (list Loop) := λ s, (Ok (loops s), s).

Definition set_loops (ls : list Loop) : M unit :=
  λ s, (Ok (), {| loops := ls; trace := trace s |}).

Definition call (e : event) : M unit :=
  λ s, (Ok (), {| loops := loops s; trace := trace s ++ [e] |}).

(** [v[i]] on a vector. *)
Definition at_index {A} (v : list A) (i : nat) : M A :=
  match v !! i with
  | Some a => mret a
  | None => lift Undefined
  end.

(** [loops.push_back(l)] *)
Definition push_back (l : Loop) : M unit :=
  ls ← get_loops; set_loops (ls ++ [l]).

(** [for (uint i = from; i < from + length; ++i) body(i)] over vector
    positions. *)
Fixpoint for_each (idx : list nat) (body : nat → M unit) : M unit :=
  match idx with
  | [] => mret ()
  | i :: idx' => body i;; for_each idx' body
  end.

(** ** prepare_all_loops *)

Section prepare_all_loops.

Variable cfg : Config.

Definition read_loop_size : Z := to_uint (loop_size cfg * read_step cfg).

(** The loop of lines 57-59. [i] wraps around on [i += read_loop_size],
    so the loop need not terminate: it runs on fuel. *)
Fixpoint fixed_mode_loops (fuel : nat) (i : Z) : M unit :=
  match fuel with
  | O => lift OutOfFuel
  | S fuel' =>
    if i <=? to_uint (read_to cfg) then
      l ← lift (Loop_Loop (to_uint (i - read_loop_size)) i);
      push_back l;;
      fixed_mode_loops fuel' (to_uint (i + read_loop_size))
    else mret ()
  end.

(** Lines 61-65: [front()] and [back()] of the empty vector are
    undefined. *)
Definition fixed_mode_edge_frames : M (list Frame) :=
  ls ← get_loops;
  match ls with
  | [] => lift Undefined
  | l0 :: _ =>
    let edges_from := (edge_frames_indexes l0).1 in
    let edges_to := (edge_frames_indexes (List.last ls l0)).2 in
    call (ev_Iter edges_from edges_to read_loop_size);;
    mret (Iter edges_from edges_to read_loop_size)
  end.

(** Lines 71-76: one pass over the frames of [it]; [edge_indices] is read
    at [edge_index] on every frame. *)
Fixpoint balanced_edge_frames (it : list Frame) (edge_indices : list Z)
    (index : Z) (edge_index : nat) (edge_frames : list Frame)
  : outcome (list Frame) :=
  match it with
  | [] => Ok edge_frames
  | f :: it' =>
    match edge_indices !! edge_index with
    | None => Undefined
    | Some e =>
      if index =? e then
        balanced_edge_frames it' edge_indices (to_uint (index + 1))
          (S edge_index) (edge_frames ++ [f])
      else
        balanced_edge_frames it' edge_indices (to_uint (index + 1))
          edge_index edge_frames
    end
  end.

(** Lines 78-83: one Loop per pair of consecutive edge indices. *)
Fixpoint balanced_mode_loops (edge_indices : list Z) : M unit :=
  match edge_indices with
  | [] => mret ()
  | prev :: rest =>
    match rest with
    | [] => mret ()
    | cur :: _ =>
      let from := to_uint (prev * read_step cfg + read_from cfg) in
      let to := to_uint (cur * read_step cfg + read_from cfg) in
      l ← lift (Loop_Loop from to);
      push_back l;;
      balanced_mode_loops rest
    end
  end.

(** Lines 51-84: edge selection and edge-frame collection. *)
Definition select_edges (fuel : nat) : M (list Frame) :=
  if negb (EDGE_BASED_RECONSTRUCTION_EDGE_BALANCING cfg) then
    fixed_mode_loops fuel (to_uint (read_from cfg + read_loop_size));;
    fixed_mode_edge_frames
  else
    call (ev_Iter (read_from cfg) (read_to cfg) (read_step cfg));;
    let it := Iter (read_from cfg) (read_to cfg) (read_step cfg) in
    call ev_balance;;
    let edge_indices := balance it (loop_size cfg) in
    edge_frames ← lift (balanced_edge_frames it edge_indices 0 0 []);
    balanced_mode_loops edge_indices;;
    mret edge_frames.

(** Lines 86-88. *)
Definition edge_count_mismatch : exception :=
  runtime_error
    "EdgeBasedRegistration::prepare_all_loops loops.size() != edge_frames.size() + 1".

Definition check_edge_count (edge_frames : list Frame) : M unit :=
  ls ← get_loops;
  if decide (length ls + 1 ≠ length edge_frames)%nat then
    throw edge_count_mismatch
  else mret ().

(** The body of the loop of lines 104-112 at index [i]. *)
Definition set_loop_edges (edge_frames : list Frame)
    (sac_t icp_t : list Matrix4f) (kp : list KeypointsFrame) (i : nat)
  : M unit :=
  ls ← get_loops;
  l ← at_index ls (i - 1);
  first_frame ← at_index edge_frames (i - 1);
  second_frame ← at_index edge_frames i;
  icp_first ← at_index icp_t (i - 1);
  sac_first ← at_index sac_t (i - 1);
  icp_second ← at_index icp_t i;
  sac_second ← at_index sac_t i;
  k ← at_index kp (i - 1);
  set_loops (<[(i - 1)%nat :=
    {| inner_transformations := inner_transformations l;
       inner_t_fitness_scores := inner_t_fitness_scores l;
       edge_frames_indexes := edge_frames_indexes l;
       edge_frames := (first_frame, second_frame);
       edge_keypoints := k;
       edge_transformations :=
         (mmul icp_first sac_first, mmul icp_second sac_second) |}]> ls).

(** Lines 90-112: filtering, coarse then fine alignment of the edge
    frames, and the assignment of the edge data to the loops. *)
Definition align_edges (edge_frames : list Frame) : M unit :=
  call ev_filter;;
  let edge_frames := PcdFilters_filter edge_frames in
  call ev_sac_align;;
  let linear_sac := sac edge_frames Identity in
  let sac_t := reg_align linear_sac in
  let transformed_edge_frames := reg_transformed_frames linear_sac in
  call ev_icp_align;;
  let linear_icp :=
    icp transformed_edge_frames Identity
        (reg_getTransformedKeypoints linear_sac) in
  let icp_t := reg_align linear_icp in
  let kp := reg_getKeypoints linear_sac in
  for_each (seq 1 (length icp_t - 1))
           (set_loop_edges edge_frames sac_t icp_t kp).

Definition prepare_all_loops (fuel : nat) : M unit :=
  edge_frames ← select_edges fuel;
  check_edge_count edge_frames;;
  align_edges edge_frames.

End prepare_all_loops.

(** ** process_one_loop *)

(** A loop over vector positions that updates a local variable. *)
Fixpoint fold_each {A} (idx : list nat) (body : nat → A → M A) (a : A)
  : M A :=
  match idx with
  | [] => mret a
  | i :: idx' => a' ← body i a; fold_each idx' body a'
  end.

(** Lines 170-173: [result_t.push_back(icp_t[i] * sac_t[i])] for every
    [i < icp_t.size()]. *)
Definition compose_transformations (sac_t icp_t : list Matrix4f)
  : M (list Matrix4f) :=
  fold_each (seq 0 (length icp_t))
    (λ i result_t,
       icp_i ← at_index icp_t i;
       sac_i ← at_index sac_t i;
       mret (result_t ++ [mmul icp_i sac_i]))
    [].

(** Lines 179-181 and 186-188:
    [result_t[i] = c[i] * result_t[i]] for every [1 <= i < c.size()]. *)
Definition apply_correction (c result_t : list Matrix4f)
  : M (list Matrix4f) :=
  fold_each (seq 1 (length c - 1))
    (λ i result_t,
       c_i ← at_index c i;
       r_i ← at_index result_t i;
       mret (<[i := mmul c_i r_i]> result_t))
    result_t.

Section process_one_loop.

Variable cfg : Config.

(** Lines 149-173: interior collection and interior alignment. Returns
    the two registrations and the composed [result_t]. *)
Definition interior_alignment (loop : Loop)
  : M (Registration * Registration * list Matrix4f) :=
  call (ev_Iter (edge_frames_indexes loop).1 (edge_frames_indexes loop).2
                (read_step cfg));;
  let inner_frames :=
    Iter (edge_frames_indexes loop).1 (edge_frames_indexes loop).2
         (read_step cfg) in
  call ev_filter;;
  let inner_frames := PcdFilters_filter inner_frames in
  call ev_sac_align;;
  let linear_sac := sac inner_frames (edge_transformations loop).1 in
  let sac_t := reg_align linear_sac in
  let transformed_inner_frames := reg_transformed_frames linear_sac in
  call ev_icp_align;;
  let linear_icp :=
    icp transformed_inner_frames Identity
        (reg_getTransformedKeypoints linear_sac) in
  let icp_t := reg_align linear_icp in
  result_t ← compose_transformations sac_t icp_t;
  mret (linear_sac, linear_icp, result_t).

(** Lines 176-189: the two corrections, one after the other. Returns the
    keypoints of the second one and the corrected [result_t]. *)
Definition loop_closure_correction (loop : Loop)
    (transformed_inner_frames : list Frame)
    (keypoints : list KeypointsFrame) (result_t : list Matrix4f)
  : M (list KeypointsFrame * list Matrix4f) :=
  call ev_elch_correct;;
  let elch_c :=
    elch transformed_inner_frames keypoints result_t (edge_keypoints loop) in
  let elch_t := cor_correct elch_c in
  let transformed_inner_frames := cor_transformed_frames elch_c in
  result_t ← apply_correction elch_t result_t;
  call ev_lum_correct;;
  let lum_c :=
    lum transformed_inner_frames (cor_getTransformedKeypoints elch_c)
        result_t (edge_keypoints loop) in
  let lum_t := cor_correct lum_c in
  result_t ← apply_correction lum_t result_t;
  mret (cor_getTransformedKeypoints lum_c, result_t).

Definition process_one_loop (loop : Loop) : M Loop :=
  '(linear_sac, linear_icp, result_t) ← interior_alignment loop;
  let transformed_inner_frames := reg_transformed_frames linear_icp in
  let transformed_keypoints := reg_getTransformedKeypoints linear_icp in
  '(transformed_keypoints, result_t) ←
    (if EDGE_BASED_RECONSTRUCTION_ELCH_LUM cfg then
       loop_closure_correction loop transformed_inner_frames
         (reg_getTransformedKeypoints linear_icp) result_t
     else mret (transformed_keypoints, result_t));
  call ev_vizualization;;
  mret {| inner_transformations := result_t;
          inner_t_fitness_scores := reg_getFitnessScores linear_icp;
          edge_frames_indexes := edge_frames_indexes loop;
          edge_frames := edge_frames loop;
          edge_keypoints := edge_keypoints loop;
          edge_transformations := edge_transformations loop |}.

(** Lines 115-122. *)
Definition process_all_loops : M unit :=
  ls ← get_loops;
  for_each (seq 0 (length ls))
    (λ i,
       ls ← get_loops;
       l ← at_index ls i;
       l' ← process_one_loop l;
       ls ← get_loops;
       set_loops (<[i := l']> ls));;
  call ev_loops_data_vizualization.

End process_one_loop.

(** ** perform_tsdf_meshing *)

(** The two settings read by [perform_tsdf_meshing]. *)
Record Visualization : Type := {
  DRAW_ALL_CAMERA_POSES : bool;
  CPU_TSDF_DRAW_MESH : bool
}.

(** The calls [perform_tsdf_meshing] makes to the volume reconstruction
    and to the visualizer, with the transformations it hands over. *)
Inductive tsdf_call : Type :=
| call_prepareVolume
| call_redraw
| call_visualizeCameraPoses (result_t : list Matrix4f)
| call_calculateMesh
| call_getPoligonMesh
| call_visualizeMesh.

(** Lines 126-130: the [inner_transformations] of [loops[i]] are copied
    to the back of [result_t], for every [i < loops.size()]. *)
Definition copy_inner_transformations : M (list Matrix4f) :=
  ls ← get_loops;
  fold_each (seq 0 (length ls))
    (λ i result_t,
       ls ← get_loops;
       l ← at_index ls i;
       mret (result_t ++ inner_transformations l))
    [].

(** Lines 124-145. Returns the calls made, in program order. *)
Definition perform_tsdf_meshing (v : Visualization) : M (list tsdf_call) :=
  result_t ← copy_inner_transformations;
  mret ([call_prepareVolume; call_redraw]
        ++ (if DRAW_ALL_CAMERA_POSES v
            then [call_visualizeCameraPoses result_t] else [])
        ++ (if CPU_TSDF_DRAW_MESH v
            then [call_calculateMesh; call_getPoligonMesh;
                  call_visualizeMesh]
            else [])).

(** ** Vocabulary of the properties *)

(** The Loop the constructor builds when it does not throw. *)
Definition fresh_Loop (start_index end_index : Z) : Loop :=
  {| inner_transformations := [];
     inner_t_fitness_scores := [];
     edge_frames_indexes := (start_index, end_index);
     edge_frames := (Frame_default, Frame_default);
     edge_keypoints := KeypointsFrame_default;
     edge_transformations := (Identity, Identity) |}.

(** Every call [m] makes to a collaborator satisfies [P], whatever the
    outcome. *)
Definition emits (P : event → Prop) {A} (m : M A) : Prop :=
  ∀ s, ∃ evs, trace (m s).2 = trace s ++ evs ∧ Forall P evs.

(** The number of whole loops in the range. *)
Definition whole_loops (cfg : Config) : nat :=
  Z.to_nat ((read_to cfg - read_from cfg) / read_loop_size cfg).

(** What the body of the loop of lines 104-112 assigns to [loops[j]],
    when every vector is read in bounds. *)
Definition with_edge_data (frames : list Frame) (sac_t icp_t : list Matrix4f)
    (kp : list KeypointsFrame) (j : nat) (l : Loop) : option Loop :=
  first_frame ← frames !! j;
  second_frame ← frames !! S j;
  icp_first ← icp_t !! j;
  sac_first ← sac_t !! j;
  icp_second ← icp_t !! S j;
  sac_second ← sac_t !! S j;
  k ← kp !! j;
  Some {| inner_transformations := inner_transformations l;
          inner_t_fitness_scores := inner_t_fitness_scores l;
          edge_frames_indexes := edge_frames_indexes l;
          edge_frames := (first_frame, second_frame);
          edge_keypoints := k;
          edge_transformations :=
            (mmul icp_first sac_first, mmul icp_second sac_second) |}.

(** The entry at [j] of [result_t] corrected by [c], when [c] covers
    it. *)
Definition corrected_at (c result_t : list Matrix4f) (j : nat)
  : option Matrix4f :=
  c_j ← c !! j; r_j ← result_t !! j; Some (mmul c_j r_j).

(** Each loop ends at the frame the next one starts at. *)
Definition contiguous (ls : list Loop) : Prop :=
  ∀ i l l_next,
    ls !! i = Some l → ls !! S i = Some l_next →
    (edge_frames_indexes l).2 = (edge_frames_indexes l_next).1.

(** The frames of [it] at the positions [edge_indices], [it] starting at
    position [index]. *)
Fixpoint frames_at (it : list Frame) (index : Z) (edge_indices : list Z)
  : list Frame :=
  match edge_indices with
  | [] => []
  | e :: rest =>
    match it !! Z.to_nat (e - index) with
    | Some f => f :: frames_at it index rest
    | None => frames_at it index rest
    end
  end.

(** The loops balanced mode makes of consecutive edge positions. *)
Definition loops_between (cfg : Config) (edge_indices : list Z) : list Loop :=
  zip_with
    (λ prev cur, fresh_Loop (prev * read_step cfg + read_from cfg)
                            (cur * read_step cfg + read_from cfg))
    edge_indices (tail edge_indices).

(** [m] neither reads nor writes [loops], and what it returns and calls
    does not depend on the state. *)
Definition stateless {A} (m : M A) : Prop :=
  ∃ o evs, ∀ s, m s = (o, {| loops := loops s; trace := trace s ++ evs |}).

(** The state with no loops and no call made. *)
Definition no_state : state := {| loops := []; trace := [] |}.

(** What [process_one_loop] returns for a Loop, and the calls it makes. *)
Definition processed (cfg : Config) (loop : Loop) : outcome Loop :=
  (process_one_loop cfg loop no_state).1.

Definition calls_of (cfg : Config) (loop : Loop) : list event :=
  trace (process_one_loop cfg loop no_state).2.

End EdgeBasedRegistration.

(** * A synthetic instance

    Frames, keypoints and scores are integers, transformations are 4x4
    integer matrices; the coarse aligner returns translations (composed
    with its seed), the refinement aligner a quarter turn, so that the
    order of the product shows. *)

Module Synthetic.

Definition Matrix : Type := list (list Z).

Definition column (j : nat) (b : Matrix) : list Z :=
  (λ row, nth j row 0) <$> b.

Definition dot (u v : list Z) : Z := foldr Z.add 0 (zip_with Z.mul u v).

Definition mat_mul (a b : Matrix) : Matrix :=
  (λ row, (λ j, dot row (column j b)) <$> seq 0 4) <$> a.

Definition I4 : Matrix :=
  [[1; 0; 0; 0]; [0; 1; 0; 0]; [0; 0; 1; 0]; [0; 0; 0; 1]].

Definition translation (x : Z) : Matrix :=
  [[1; 0; 0; x]; [0; 1; 0; 0]; [0; 0; 1; 0]; [0; 0; 0; 1]].

Definition quarter_turn : Matrix :=
  [[0; -1; 0; 0]; [1; 0; 0; 0]; [0; 0; 1; 0]; [0; 0; 0; 1]].

#[local] Instance Z_types : Types :=
  {| Frame := Z; KeypointsFrame := Z; Matrix4f := Matrix; Score := Z |}.

(** A frame source that yields the frames from, from + step, ... up to
    [to], [to] included or not. *)
Definition frames_between (inclusive : bool) (from to step : Z) : list Z :=
  if 0 <? step then
    (λ k, from + k * step)
      <$> seqZ 0 ((to - from - (if inclusive then 0 else 1)) / step + 1)
  else [].

(** A balancer that makes every [loop_size]-th position an edge. *)
Definition every_nth (it : list Z) (loop_size : Z) : list Z :=
  (λ k, k * loop_size) <$> seqZ 0 ((Z.of_nat (length it) - 1) / loop_size + 1).

Definition coarse (fs : list Z) (t : Matrix) : @Registration Z_types :=
  {| reg_align := (λ f, mat_mul t (translation f)) <$> fs;
     reg_transformed_frames := fs;
     reg_getKeypoints := fs;
     reg_getTransformedKeypoints := fs;
     reg_getFitnessScores := (λ _, 0) <$> fs |}.

Definition refine (fs : list Z) (t : Matrix) (k : list Z)
  : @Registration Z_types :=
  {| reg_align := (λ _, mat_mul t quarter_turn) <$> fs;
     reg_transformed_frames := fs;
     reg_getKeypoints := k;
     reg_getTransformedKeypoints := k;
     reg_getFitnessScores := (λ f, f + 1) <$> fs |}.

(** A corrector that returns the translation by [x] for the first [n] of
    the transformations it is given. *)
Definition corrector (x : Z) (n : nat) (fs k : list Z) (ts : list Matrix)
    (ek : Z) : @Correction Z_types :=
  {| cor_correct := take n ((λ _, translation x) <$> ts);
     cor_transformed_frames := fs;
     cor_getTransformedKeypoints := k |}.

(** A corrector that returns one transformation too many. *)
Definition overlong (x : Z) (fs k : list Z) (ts : list Matrix) (ek : Z)
  : @Correction Z_types :=
  {| cor_correct := translation x :: ((λ _, translation x) <$> ts);
     cor_transformed_frames := fs;
     cor_getTransformedKeypoints := k |}.

Definition synthetic (inclusive : bool)
    (first_corrector second_corrector :
       list Z → list Z → list Matrix → Z → @Correction Z_types)
  : @Collaborators Z_types :=
  {| Frame_default := 0;
     KeypointsFrame_default := 0;
     Identity := I4;
     mmul := mat_mul;
     Iter := frames_between inclusive;
     balance := every_nth;
     PcdFilters_filter := id;
     sac := coarse;
     icp := refine;
     elch := first_corrector;
     lum := second_corrector |}.

(** Both correctors return one transformation per transformation. *)
Definition full_correction : @Collaborators Z_types :=
  synthetic true (corrector 1 4) (corrector 2 4).

(** The first corrector returns two transformations only. *)
Definition short_correction : @Collaborators Z_types :=
  synthetic true (corrector 1 2) (corrector 2 4).

(** The first corrector returns one transformation too many. *)
Definition long_correction : @Collaborators Z_types :=
  synthetic true (overlong 1) (corrector 2 4).

(** The frame source leaves the end of the range out. *)
Definition exclusive_source : @Collaborators Z_types :=
  synthetic false (corrector 1 4) (corrector 2 4).

Definition s0 : @state Z_types := {| loops := []; trace := [] |}.

Definition config (to : Z) (elch_lum : bool) : Config :=
  {| loop_size := 10; read_from := 0; read_to := to; read_step := 1;
     EDGE_BASED_RECONSTRUCTION_EDGE_BALANCING := false;
     EDGE_BASED_RECONSTRUCTION_ELCH_LUM := elch_lum |}.

Definition balanced_config (to : Z) : Config :=
  {| loop_size := 2; read_from := 3; read_to := to; read_step := 1;
     EDGE_BASED_RECONSTRUCTION_EDGE_BALANCING := true;
     EDGE_BASED_RECONSTRUCTION_ELCH_LUM := false |}.

Definition loop_10_13 : @Loop Z_types :=
  {| inner_transformations := [];
     inner_t_fitness_scores := [];
     edge_frames_indexes := (10, 13);
     edge_frames := (10, 13);
     edge_keypoints := 10;
     edge_transformations := (translation 5, translation 7) |}.

(** result_t of interior alignment on [loop_10_13]:
    quarter_turn * (translation 5 * translation f) for f = 10 .. 13. *)
Definition result_10_13 : list Matrix :=
  [[[0; -1; 0; 0]; [1; 0; 0; 15]; [0; 0; 1; 0]; [0; 0; 0; 1]];
   [[0; -1; 0; 0]; [1; 0; 0; 16]; [0; 0; 1; 0]; [0; 0; 0; 1]];
   [[0; -1; 0; 0]; [1; 0; 0; 17]; [0; 0; 1; 0]; [0; 0; 0; 1]];
   [[0; -1; 0; 0]; [1; 0; 0; 18]; [0; 0; 1; 0]; [0; 0; 0; 1]]].

(** The loops fixed mode creates from 0 with stride 10. *)
Definition loops_of_ten (n : nat) : list (@Loop Z_types) :=
  (λ k : nat,
     fresh_Loop (collab := full_correction) (Z.of_nat k * 10)
                ((Z.of_nat k + 1) * 10)) <$> seq 0 n.

Definition two_loops : @state Z_types :=
  {| loops := loops_of_ten 2; trace := [] |}.

(** A loop size whose product with the stride is 2^32, which is 0 on
    [uint]. *)
Definition wrapped_size_config : Config :=
  {| loop_size := 65536; read_from := 0; read_to := 100; read_step := 65536;
     EDGE_BASED_RECONSTRUCTION_EDGE_BALANCING := false;
     EDGE_BASED_RECONSTRUCTION_ELCH_LUM := true |}.

(** A refinement aligner that returns one transformation more than it
    has frames. *)
Definition eager_refine (fs : list Z) (t : Matrix) (k : list Z)
  : @Registration Z_types :=
  refine (0 :: fs) t k.

Definition eager_refinement : @Collaborators Z_types :=
  {| Frame_default := 0;
     KeypointsFrame_default := 0;
     Identity := I4;
     mmul := mat_mul;
     Iter := frames_between true;
     balance := every_nth;
     PcdFilters_filter := id;
     sac := coarse;
     icp := eager_refine;
     elch := corrector 1 4;
     lum := corrector 2 4 |}.

(** A first corrector that returns one transformation too many for the
    loop whose boundary keypoints are 20, and one per transformation
    otherwise. *)
Definition picky_corrector (fs k : list Z) (ts : list Matrix) (ek : Z)
  : @Correction Z_types :=
  if ek =? 20 then overlong 1 fs k ts ek else corrector 1 4 fs k ts ek.

Definition picky_correction : @Collaborators Z_types :=
  synthetic true picky_corrector (corrector 2 4).

Definition loop_20_22 : @Loop Z_types :=
  {| inner_transformations := [];
     inner_t_fitness_scores := [];
     edge_frames_indexes := (20, 22);
     edge_frames := (20, 22);
     edge_keypoints := 20;
     edge_transformations := (translation 7, translation 9) |}.

Definition loop_30_31 : @Loop Z_types :=
  {| inner_transformations := [];
     inner_t_fitness_scores := [];
     edge_frames_indexes := (30, 31);
     edge_frames := (30, 31);
     edge_keypoints := 30;
     edge_transformations := (translation 9, translation 10) |}.

Definition three_loops : @state Z_types :=
  {| loops := [loop_10_13; loop_20_22; loop_30_31]; trace := [] |}.

Definition draw_everything : Visualization :=
  {| DRAW_ALL_CAMERA_POSES := true; CPU_TSDF_DRAW_MESH := true |}.

(** A stride of 3: loops of 10 * 3 = 30 frame indices, from frame 5. *)
Definition strided_config (to : Z) : Config :=
  {| loop_size := 10; read_from := 5; read_to := to; read_step := 3;
     EDGE_BASED_RECONSTRUCTION_EDGE_BALANCING := false;
     EDGE_BASED_RECONSTRUCTION_ELCH_LUM := true |}.

(** The loops fixed mode creates from 5 with loops of 30. *)
Definition loops_of_thirty (n : nat) : list (@Loop Z_types) :=
  (λ k : nat,
     fresh_Loop (collab := full_correction) (5 + Z.of_nat k * 30)
                (5 + (Z.of_nat k + 1) * 30)) <$> seq 0 n.

(** A range of 50 frame indices with loops of 700000000 * 3 = 2100000000:
    the first candidate edge, 2200000000 + 2100000000 = 4300000000, is
    beyond read_to and beyond 2^32 = 4294967296. *)
Definition wrapping_config : Config :=
  {| loop_size := 700000000; read_from := 2200000000;
     read_to := 2200000050; read_step := 3;
     EDGE_BASED_RECONSTRUCTION_EDGE_BALANCING := false;
     EDGE_BASED_RECONSTRUCTION_ELCH_LUM := true |}.

(** A loop size of 0, which is what [toInt()] gives for a missing
    setting. *)
Definition zero_size_config : Config :=
  {| loop_size := 0; read_from := 0; read_to := 100; read_step := 1;
     EDGE_BASED_RECONSTRUCTION_EDGE_BALANCING := false;
     EDGE_BASED_RECONSTRUCTION_ELCH_LUM := true |}.

(** A loop size of -1: [read_loop_size] is 4294967295 on [uint]. *)
Definition negative_size_config : Config :=
  {| loop_size := -1; read_from := 1; read_to := 100; read_step := 1;
     EDGE_BASED_RECONSTRUCTION_EDGE_BALANCING := false;
     EDGE_BASED_RECONSTRUCTION_ELCH_LUM := true |}.

(** A filter that drops the first frame it is given. *)
Definition dropping_filter : @Collaborators Z_types :=
  {| Frame_default := 0;
     KeypointsFrame_default := 0;
     Identity := I4;
     mmul := mat_mul;
     Iter := frames_between true;
     balance := every_nth;
     PcdFilters_filter := tail;
     sac := coarse;
     icp := refine;
     elch := corrector 1 4;
     lum := corrector 2 4 |}.

End Synthetic.

(** * Properties *)

Section Properties.

Context {T : Types} {collab : Collaborators}.

(** ** Reasoning in the monad *)

Lemma bind_Ok {A B} (m : M A) (k : A → M B) s a s' :
  m s = (Ok a, s') → (m ≫= k) s = k a s'.
Proof. intros Hm. unfold mbind, M_bind. by rewrite Hm. Qed.

Lemma bind_Throw {A B} (m : M A) (k : A → M B) s e s' :
  m s = (Throw e, s') → (m ≫= k) s = (Throw e, s').
Proof. intros Hm. unfold mbind, M_bind. by rewrite Hm. Qed.

Lemma bind_Undefined {A B} (m : M A) (k : A → M B) s s' :
  m s = (Undefined, s') → (m ≫= k) s = (Undefined, s').
Proof. intros Hm. unfold mbind, M_bind. by rewrite Hm. Qed.

Lemma bind_OutOfFuel {A B} (m : M A) (k : A → M B) s s' :
  m s = (OutOfFuel, s') → (m ≫= k) s = (OutOfFuel, s').
Proof. intros Hm. unfold mbind, M_bind. by rewrite Hm. Qed.

Lemma bind_assoc {A B C} (m : M A) (k1 : A → M B) (k2 : B → M C) s :
  ((m ≫= k1) ≫= k2) s = (m ≫= (λ a, k1 a ≫= k2)) s.
Proof. unfold mbind, M_bind. by destruct (m s) as [[] ?]. Qed.

Lemma bind_ext {A B} (m : M A) (k1 k2 : A → M B) s :
  (∀ a s', k1 a s' = k2 a s') → (m ≫= k1) s = (m ≫= k2) s.
Proof.
  intros Hk. unfold mbind, M_bind.
  destruct (m s) as [[a | e | |] s']; by rewrite ?Hk.
Qed.

Lemma at_index_Some {A} (v : list A) i a s :
  v !! i = Some a → at_index v i s = (Ok a, s).
Proof. intros Hv. unfold at_index. by rewrite Hv. Qed.

Lemma at_index_None {A} (v : list A) i s :
  v !! i = None → at_index v i s = (Undefined, s).
Proof. intros Hv. unfold at_index. by rewrite Hv. Qed.

Lemma push_back_run l s :
  push_back l s = (Ok (), {| loops := loops s ++ [l]; trace := trace s |}).
Proof. reflexivity. Qed.

Lemma state_eta s : {| loops := loops s; trace := trace s |} = s.
Proof. by destruct s. Qed.

(** ** What a member function adds to the trace *)

Section emits.

Variable P : event → Prop.

Lemma emits_silent {A} (m : M A) :
  (∀ s, trace (m s).2 = trace s) → emits P m.
Proof. intros Hm s. exists []. rewrite app_nil_r. by split. Qed.

Lemma emits_ret {A} (a : A) : emits P (mret a).
Proof. by apply emits_silent. Qed.

Lemma emits_lift {A} (o : outcome A) : emits P (lift o).
Proof. by apply emits_silent. Qed.

Lemma emits_get_loops : emits P get_loops.
Proof. by apply emits_silent. Qed.

Lemma emits_set_loops ls : emits P (set_loops ls).
Proof. by apply emits_silent. Qed.

Lemma emits_call e : P e → emits P (call e).
Proof. intros He s. exists [e]. split; [done |]. by constructor. Qed.

Lemma emits_bind {A B} (m : M A) (k : A → M B) :
  emits P m → (∀ a, emits P (k a)) → emits P (m ≫= k).
Proof.
  intros Hm Hk s. destruct (Hm s) as [evs [Htr Hall]].
  unfold mbind, M_bind. destruct (m s) as [[a | e | |] s1]; simpl in Htr;
    try by (exists evs).
  destruct (Hk a s1) as [evs' [Htr' Hall']].
  exists (evs ++ evs'). rewrite Htr', Htr, app_assoc. split; [done |].
  by apply Forall_app.
Qed.

Lemma emits_at_index {A} (v : list A) i : emits P (at_index v i).
Proof.
  unfold at_index. destruct (v !! i); [apply emits_ret | apply emits_lift].
Qed.

Lemma emits_push_back l : emits P (push_back l).
Proof.
  apply emits_bind; [apply emits_get_loops |].
  intros ls. apply emits_set_loops.
Qed.

Lemma emits_for_each idx body :
  (∀ i, emits P (body i)) → emits P (for_each idx body).
Proof.
  intros Hbody. induction idx as [|i idx IH]; simpl.
  - apply emits_ret.
  - apply emits_bind; [apply Hbody | done].
Qed.

Lemma emits_fold_each {A} idx (body : nat → A → M A) :
  (∀ i a, emits P (body i a)) → ∀ a, emits P (fold_each idx body a).
Proof.
  intros Hbody. induction idx as [|i idx IH]; intros a; simpl.
  - apply emits_ret.
  - apply emits_bind; [apply Hbody | done].
Qed.

Lemma emits_fixed_mode_loops cfg fuel :
  ∀ i, emits P (fixed_mode_loops cfg fuel i).
Proof.
  induction fuel as [|fuel IH]; intros i; simpl.
  - apply emits_lift.
  - destruct (i <=? to_uint (read_to cfg)); [| apply emits_ret].
    apply emits_bind; [apply emits_lift |]. intros l.
    apply emits_bind; [apply emits_push_back | done].
Qed.

Lemma emits_balanced_mode_loops cfg edge_indices :
  emits P (balanced_mode_loops cfg edge_indices).
Proof.
  induction edge_indices as [|prev rest IH]; simpl; [apply emits_ret |].
  destruct rest as [|cur rest']; [apply emits_ret |].
  apply emits_bind; [apply emits_lift |]. intros l.
  apply emits_bind; [apply emits_push_back | done].
Qed.

Lemma emits_select_edges cfg fuel :
  (∀ from to step, P (ev_Iter from to step)) → P ev_balance →
  emits P (select_edges cfg fuel).
Proof.
  intros HIter Hbalance. unfold select_edges.
  destruct (negb (EDGE_BASED_RECONSTRUCTION_EDGE_BALANCING cfg)).
  - apply emits_bind; [apply emits_fixed_mode_loops |]. intros _.
    unfold fixed_mode_edge_frames.
    apply emits_bind; [apply emits_get_loops |]. intros [|l0 ls].
    + apply emits_lift.
    + apply emits_bind; [by apply emits_call |]. intros _. apply emits_ret.
  - apply emits_bind; [by apply emits_call |]. intros _.
    apply emits_bind; [by apply emits_call |]. intros _.
    apply emits_bind; [apply emits_lift |]. intros edge_frames.
    apply emits_bind; [apply emits_balanced_mode_loops |]. intros _.
    apply emits_ret.
Qed.

End emits.

(** ** Unsigned arithmetic *)

Lemma to_uint_small z : is_uint z → to_uint z = z.
Proof. intros Hz. apply Z.mod_small. exact Hz. Qed.

Lemma to_uint_range z : is_uint (to_uint z).
Proof. apply Z.mod_pos_bound. reflexivity. Qed.

Lemma to_uint_diag z : to_uint (z - z) = 0.
Proof. by rewrite Z.sub_diag. Qed.

Lemma to_uint_sub_wrap a b :
  is_uint a → is_uint b → b < a → to_uint (b - a) = b - a + uint_modulus.
Proof.
  intros Ha Hb Hlt. unfold to_uint, is_uint in *.
  symmetry. apply (Z.mod_unique_pos _ _ (-1)); lia.
Qed.

(** ** The constructor *)

Lemma Loop_Loop_eq start_index end_index :
  Loop_Loop start_index end_index =
    if to_uint (end_index - start_index) =? 0
    then Throw (invalid_argument "Loop loop_size == 0")
    else Ok (fresh_Loop start_index end_index).
Proof. reflexivity. Qed.

Lemma Loop_Loop_lt start_index end_index :
  is_uint start_index → is_uint end_index → start_index < end_index →
  Loop_Loop start_index end_index = Ok (fresh_Loop start_index end_index).
Proof.
  intros Hs He Hlt. rewrite Loop_Loop_eq.
  rewrite to_uint_small by (unfold is_uint in *; lia).
  destruct (Z.eqb_spec (end_index - start_index) 0); [lia | done].
Qed.

(** C7. Constructing a Loop with start == end throws
    [std::invalid_argument]; with start < end the constructor returns the
    Loop with these boundary indices, both boundary transformations the
    identity, and nothing else filled in. *)
Theorem Loop_zero_length_throws (start_index end_index : Z) :
  is_uint start_index → is_uint end_index → start_index ≤ end_index →
  Loop_Loop start_index end_index =
    if decide (start_index = end_index)
    then Throw (invalid_argument "Loop loop_size == 0")
    else Ok {| inner_transformations := [];
               inner_t_fitness_scores := [];
               edge_frames_indexes := (start_index, end_index);
               edge_frames := (Frame_default, Frame_default);
               edge_keypoints := KeypointsFrame_default;
               edge_transformations := (Identity, Identity) |}.
Proof.
  intros Hs He Hle. destruct (decide (start_index = end_index)) as [->|Hne].
  - rewrite Loop_Loop_eq, to_uint_diag. done.
  - apply Loop_Loop_lt; [done | done | lia].
Qed.

(** C9. With end < start the unsigned difference end - start is
    end - start + 2^32, which is not zero, so the constructor does not
    throw: it returns a Loop with the inverted boundary indices. *)
Theorem Loop_inverted_constructs (start_index end_index : Z) :
  is_uint start_index → is_uint end_index → end_index < start_index →
  to_uint (end_index - start_index)
    = end_index - start_index + uint_modulus ∧
  to_uint (end_index - start_index) ≠ 0 ∧
  Loop_Loop start_index end_index =
    Ok {| inner_transformations := [];
          inner_t_fitness_scores := [];
          edge_frames_indexes := (start_index, end_index);
          edge_frames := (Frame_default, Frame_default);
          edge_keypoints := KeypointsFrame_default;
          edge_transformations := (Identity, Identity) |}.
Proof.
  intros Hs He Hlt.
  assert (to_uint (end_index - start_index) ≠ 0) as Hne.
  { rewrite to_uint_sub_wrap by done. unfold is_uint in *. lia. }
  split; [by apply to_uint_sub_wrap |]. split; [done |].
  rewrite Loop_Loop_eq.
  by destruct (Z.eqb_spec (to_uint (end_index - start_index)) 0).
Qed.

(** ** Fixed mode: the loops of lines 57-59 *)

Section fixed_mode.

Variable cfg : Config.

Local Abbreviation L := (read_loop_size cfg).

Lemma read_loop_size_range : is_uint L.
Proof. apply to_uint_range. Qed.

(** [m] more iterations from candidate edge [i]. *)
Lemma fixed_mode_loops_run (m : nat) : ∀ (fuel : nat) (i : Z) (s : state),
  0 < L → is_uint (read_to cfg) → read_to cfg + L < uint_modulus →
  L ≤ i →
  (m = 0%nat ∨ i + Z.of_nat (m - 1) * L ≤ read_to cfg) →
  read_to cfg < i + Z.of_nat m * L →
  (m < fuel)%nat →
  fixed_mode_loops cfg fuel i s =
    (Ok (), {| loops := loops s ++
                 ((λ k : nat, fresh_Loop (i - L + Z.of_nat k * L)
                                         (i + Z.of_nat k * L))
                    <$> seq 0 m);
               trace := trace s |}).
Proof.
  induction m as [|m IH]; intros fuel i s HL Hrt Hmax Hi Hlast Hnext Hfuel;
    (destruct fuel as [|fuel]; [lia |]); simpl fixed_mode_loops;
    rewrite (to_uint_small (read_to cfg)) by done.
  - destruct (Z.leb_spec i (read_to cfg)); [lia |].
    simpl. by rewrite app_nil_r, state_eta.
  - assert (i ≤ read_to cfg) as Hle.
    { destruct Hlast as [|Hlast]; [lia |].
      assert (0 ≤ Z.of_nat (S m - 1) * L) by lia. lia. }
    destruct (Z.leb_spec i (read_to cfg)); [| lia].
    assert (is_uint i) as Hiu by (unfold is_uint in *; lia).
    assert (is_uint (i - L)) as HiL by (unfold is_uint in *; lia).
    assert (is_uint (i + L)) as HiL' by (unfold is_uint in *; lia).
    rewrite (to_uint_small (i - L)), (to_uint_small (i + L)) by done.
    rewrite Loop_Loop_lt by (done || lia).
    erewrite bind_Ok by reflexivity.
    erewrite bind_Ok by apply push_back_run.
    rewrite IH; try done; try lia.
    + simpl. rewrite <- fmap_S_seq, <- list_fmap_compose, <- app_assoc.
      simpl. do 3 f_equal. f_equal.
      * f_equal; lia.
      * apply list_fmap_ext. intros _ k _. simpl. f_equal; lia.
    + destruct m as [|m']; [by left | right].
      replace (S (S m') - 1)%nat with (S m') in Hlast by lia.
      destruct Hlast as [|Hlast]; [lia |].
      replace (S m' - 1)%nat with m' by lia. lia.
Qed.

Lemma whole_loops_bounds :
  0 < L → read_from cfg ≤ read_to cfg →
  read_from cfg + Z.of_nat (whole_loops cfg) * L ≤ read_to cfg
    < read_from cfg + (Z.of_nat (whole_loops cfg) + 1) * L.
Proof.
  intros HL Hle. unfold whole_loops.
  assert (0 ≤ (read_to cfg - read_from cfg) / L) as Hq
    by (apply Z.div_pos; lia).
  rewrite Z2Nat.id by done.
  pose proof (Z.mul_div_le (read_to cfg - read_from cfg) L HL).
  pose proof (Z.mul_succ_div_gt (read_to cfg - read_from cfg) L HL).
  lia.
Qed.

Lemma fixed_mode_loops_from_read_from (fuel : nat) (s : state) :
  0 ≤ read_from cfg ≤ read_to cfg →
  0 < L →
  read_to cfg + L < uint_modulus →
  ((whole_loops cfg) < fuel)%nat →
  fixed_mode_loops cfg fuel (to_uint (read_from cfg + L)) s =
    (Ok (), {| loops := loops s ++
                 ((λ k : nat,
                     fresh_Loop (read_from cfg + Z.of_nat k * L)
                                (read_from cfg + (Z.of_nat k + 1) * L))
                    <$> seq 0 (whole_loops cfg));
               trace := trace s |}).
Proof.
  intros Hrange HL Hmax Hfuel.
  pose proof (whole_loops_bounds HL (proj2 Hrange)) as [Hlo Hhi].
  rewrite to_uint_small by (unfold is_uint; lia).
  rewrite (fixed_mode_loops_run (whole_loops cfg)); try done.
  - do 3 f_equal. apply list_fmap_ext. intros _ k _. simpl. f_equal; lia.
  - unfold is_uint; lia.
  - lia.
  - destruct (whole_loops cfg) as [|m]; [by left | right].
    replace (Z.of_nat (S m - 1)) with (Z.of_nat (S m) - 1) by lia. lia.
  - lia.
Qed.

(** Whatever the fuel, the loop of lines 57-59 only appends to [loops],
    leaves the trace alone and has no undefined behaviour of its own. *)
Lemma fixed_mode_loops_extends (fuel : nat) : ∀ (i : Z) (s : state),
  (fixed_mode_loops cfg fuel i s).1 ≠ Undefined ∧
  ∃ more, loops (fixed_mode_loops cfg fuel i s).2 = loops s ++ more.
Proof.
  induction fuel as [|fuel IH]; intros i s; simpl fixed_mode_loops.
  - split; [done |]. exists []. by rewrite app_nil_r.
  - destruct (i <=? to_uint (read_to cfg)).
    + rewrite Loop_Loop_eq.
      destruct (to_uint (i - to_uint (i - L)) =? 0).
      * split; [done |]. exists []. by rewrite app_nil_r.
      * erewrite bind_Ok by reflexivity.
        erewrite bind_Ok by apply push_back_run.
        destruct (IH (to_uint (i + L))
          {| loops := loops s ++ [fresh_Loop (to_uint (i - L)) i];
             trace := trace s |}) as [Hne [more Hmore]].
        split; [done |]. eexists. rewrite Hmore. simpl.
        by rewrite <- app_assoc.
    + split; [done |]. exists []. by rewrite app_nil_r.
Qed.

Lemma fixed_mode_edge_frames_cons (l0 : Loop) (ls : list Loop) (s : state) :
  loops s = l0 :: ls →
  fixed_mode_edge_frames cfg s =
    (Ok (Iter (edge_frames_indexes l0).1
              (edge_frames_indexes (List.last (l0 :: ls) l0)).2 L),
     {| loops := loops s;
        trace := trace s ++
          [ev_Iter (edge_frames_indexes l0).1
                   (edge_frames_indexes (List.last (l0 :: ls) l0)).2 L] |}).
Proof.
  intros Hls. unfold fixed_mode_edge_frames.
  erewrite bind_Ok by reflexivity. rewrite Hls.
  erewrite bind_Ok by reflexivity. simpl. by rewrite Hls.
Qed.

Lemma fixed_mode_edge_frames_nil (s : state) :
  loops s = [] → fixed_mode_edge_frames cfg s = (Undefined, s).
Proof.
  intros Hls. unfold fixed_mode_edge_frames.
  erewrite bind_Ok by reflexivity. by rewrite Hls.
Qed.

Lemma last_fmap_seq {A} (f : nat → A) (m : nat) (d : A) :
  List.last (f <$> seq 0 (S m)) d = f m.
Proof. rewrite seq_S, fmap_app. simpl. apply last_last. Qed.

Lemma select_edges_fixed_eq (fuel : nat) :
  EDGE_BASED_RECONSTRUCTION_EDGE_BALANCING cfg = false →
  select_edges cfg fuel =
    (fixed_mode_loops cfg fuel (to_uint (read_from cfg + L));;
     fixed_mode_edge_frames cfg).
Proof. intros Hbal. unfold select_edges. by rewrite Hbal. Qed.

(** Fixed mode with at least one whole loop: [front()] and [back()] are
    in bounds and the edge frames are read from [read_from] to the last
    whole edge with stride [L]. *)
Lemma select_edges_fixed (fuel : nat) (s : state) :
  EDGE_BASED_RECONSTRUCTION_EDGE_BALANCING cfg = false →
  loops s = [] →
  0 ≤ read_from cfg → L ≤ read_to cfg - read_from cfg →
  0 < L →
  read_to cfg + L < uint_modulus →
  ((whole_loops cfg) < fuel)%nat →
  select_edges cfg fuel s =
    (Ok (Iter (read_from cfg)
              (read_from cfg + Z.of_nat (whole_loops cfg) * L) L),
     {| loops := (λ k : nat,
                    fresh_Loop (read_from cfg + Z.of_nat k * L)
                               (read_from cfg + (Z.of_nat k + 1) * L))
                   <$> seq 0 (whole_loops cfg);
        trace := trace s ++
          [ev_Iter (read_from cfg)
                   (read_from cfg + Z.of_nat (whole_loops cfg) * L) L] |}).
Proof.
  intros Hbal Hls Hrf Hge HL Hmax Hfuel.
  rewrite select_edges_fixed_eq by done.
  erewrite bind_Ok by (apply fixed_mode_loops_from_read_from; (done || lia)).
  rewrite Hls. simpl app.
  pose proof (whole_loops_bounds HL ltac:(lia)) as [_ Hhi].
  destruct (whole_loops cfg) as [|m] eqn:Hm; [lia |].
  set (f := λ k : nat, fresh_Loop (read_from cfg + Z.of_nat k * L)
                                  (read_from cfg + (Z.of_nat k + 1) * L)).
  erewrite (fixed_mode_edge_frames_cons (f 0%nat) (f <$> seq 1 m))
    by reflexivity.
  change (f 0%nat :: (f <$> seq 1 m)) with (f <$> seq 0 (S m)).
  rewrite last_fmap_seq. simpl.
  replace (read_from cfg + Z.of_nat 0 * L) with (read_from cfg) by lia.
  replace (read_from cfg + (Z.of_nat m + 1) * L)
    with (read_from cfg + Z.of_nat (S m) * L) by lia.
  done.
Qed.

(** The product of line 51 is [read_loop_size], and the number of whole
    loops is counted with it. *)
Lemma read_loop_size_eq :
  to_uint (loop_size cfg * read_step cfg) = L.
Proof. reflexivity. Qed.

Lemma whole_loops_eq :
  Z.to_nat ((read_to cfg - read_from cfg)
            / to_uint (loop_size cfg * read_step cfg)) = whole_loops cfg.
Proof. reflexivity. Qed.

(** [m] more iterations from candidate edge [i], when the candidate edge
    that ends the loop does not wrap around. *)
Lemma fixed_mode_loops_upto (m : nat) : ∀ (fuel : nat) (i : Z) (s : state),
  0 < L → is_uint (read_to cfg) →
  L ≤ i → i + Z.of_nat m * L < uint_modulus →
  (m = 0%nat ∨ i + Z.of_nat (m - 1) * L ≤ read_to cfg) →
  read_to cfg < i + Z.of_nat m * L →
  (m < fuel)%nat →
  fixed_mode_loops cfg fuel i s =
    (Ok (), {| loops := loops s ++
                 ((λ k : nat, fresh_Loop (i - L + Z.of_nat k * L)
                                         (i + Z.of_nat k * L))
                    <$> seq 0 m);
               trace := trace s |}).
Proof.
  induction m as [|m IH]; intros fuel i s HL Hrt Hi Hfit Hlast Hnext Hfuel;
    (destruct fuel as [|fuel]; [lia |]); simpl fixed_mode_loops;
    rewrite (to_uint_small (read_to cfg)) by done.
  - destruct (Z.leb_spec i (read_to cfg)); [lia |].
    simpl. by rewrite app_nil_r, state_eta.
  - assert (0 ≤ Z.of_nat m * L) as Hm by lia.
    assert (i ≤ read_to cfg) as Hle.
    { destruct Hlast as [|Hlast]; [lia |].
      replace (S m - 1)%nat with m in Hlast by lia. lia. }
    destruct (Z.leb_spec i (read_to cfg)); [| lia].
    assert (is_uint i) as Hiu by (unfold is_uint in *; lia).
    assert (is_uint (i - L)) as HiL by (unfold is_uint in *; lia).
    assert (is_uint (i + L)) as HiL' by (unfold is_uint in *; lia).
    rewrite (to_uint_small (i - L)), (to_uint_small (i + L)) by done.
    rewrite Loop_Loop_lt by (done || lia).
    erewrite bind_Ok by reflexivity.
    erewrite bind_Ok by apply push_back_run.
    rewrite IH; try done; try lia.
    + simpl. rewrite <- fmap_S_seq, <- list_fmap_compose, <- app_assoc.
      simpl. do 3 f_equal. f_equal.
      * f_equal; lia.
      * apply list_fmap_ext. intros _ k _. simpl. f_equal; lia.
    + destruct m as [|m']; [by left | right].
      replace (S (S m') - 1)%nat with (S m') in Hlast by lia.
      destruct Hlast as [|Hlast]; [lia |].
      replace (S m' - 1)%nat with m' by lia. lia.
Qed.

(** The whole loops of a range, inverted or not, when the candidate edge
    that follows the last of them does not wrap around. *)
Lemma fixed_mode_loops_whole (fuel : nat) (s : state) :
  is_uint (read_from cfg) → is_uint (read_to cfg) →
  0 < L →
  read_from cfg + (Z.of_nat (whole_loops cfg) + 1) * L < uint_modulus →
  ((whole_loops cfg) < fuel)%nat →
  fixed_mode_loops cfg fuel (to_uint (read_from cfg + L)) s =
    (Ok (), {| loops := loops s ++
                 ((λ k : nat,
                     fresh_Loop (read_from cfg + Z.of_nat k * L)
                                (read_from cfg + (Z.of_nat k + 1) * L))
                    <$> seq 0 (whole_loops cfg));
               trace := trace s |}) ∧
  read_to cfg < read_from cfg + (Z.of_nat (whole_loops cfg) + 1) * L ∧
  (read_from cfg ≤ read_to cfg →
   read_from cfg + Z.of_nat (whole_loops cfg) * L ≤ read_to cfg).
Proof.
  intros Hrf Hrt HL Hfit Hfuel.
  assert (0 ≤ Z.of_nat (whole_loops cfg) * L) as Hn by lia.
  assert (is_uint (read_from cfg + L)) as Hfirst
    by (unfold is_uint in *; lia).
  rewrite (to_uint_small (read_from cfg + L)) by done.
  destruct (Z.le_gt_cases (read_from cfg) (read_to cfg)) as [Hle|Hgt].
  - pose proof (whole_loops_bounds HL Hle) as [Hlo Hhi].
    split; [| by split].
    rewrite (fixed_mode_loops_upto (whole_loops cfg)); try done.
    + do 3 f_equal. apply list_fmap_ext. intros _ k _. simpl.
      f_equal; lia.
    + unfold is_uint in *; lia.
    + lia.
    + destruct (whole_loops cfg) as [|m]; [by left | right].
      replace (Z.of_nat (S m - 1)) with (Z.of_nat (S m) - 1) by lia. lia.
    + lia.
  - assert (whole_loops cfg = 0%nat) as Hnone.
    { unfold whole_loops.
      assert ((read_to cfg - read_from cfg) / L < 0)
        by (apply Z.div_lt_upper_bound; lia).
      lia. }
    rewrite Hnone in *. simpl.
    split; [| split; lia].
    destruct fuel as [|fuel]; [lia |]. simpl.
    rewrite (to_uint_small (read_to cfg)) by done.
    destruct (Z.leb_spec (read_from cfg + L) (read_to cfg));
      [unfold is_uint in *; lia |].
    by rewrite app_nil_r, state_eta.
Qed.

(** C1 (as the code has it). In fixed mode, with L = loop_size * read_step
    as line 51 computes it on [uint], [uint] indices read_from and
    read_to, and n = (read_to - read_from) / L the number of whole loops
    in the range: when L > 0 and the candidate edge that follows the last
    whole loop does not wrap around (read_from + (n+1) L is below 2^32),
    the loops created are (read_from + k L, read_from + (k+1) L) for
    k = 0 .. n-1. Every loop has length L, the next candidate edge
    read_from + (n+1) L is beyond read_to, the last edge read_from + n L
    is <= read_to (when read_from is), and the remainder (shorter than L)
    gets no loop. With one whole loop at least, the edge frames are then
    read from read_from to read_from + n L with stride L. *)
Theorem fixed_mode_whole_loops_only (fuel : nat) (s : state) :
  let L := to_uint (loop_size cfg * read_step cfg) in
  let n := Z.to_nat ((read_to cfg - read_from cfg) / L) in
  is_uint (read_from cfg) → is_uint (read_to cfg) →
  0 < L →
  read_from cfg + (Z.of_nat n + 1) * L < uint_modulus →
  (n < fuel)%nat →
  fixed_mode_loops cfg fuel (to_uint (read_from cfg + L)) s =
    (Ok (), {| loops := loops s ++
                 ((λ k : nat,
                     fresh_Loop (read_from cfg + Z.of_nat k * L)
                                (read_from cfg + (Z.of_nat k + 1) * L))
                    <$> seq 0 n);
               trace := trace s |}) ∧
  read_to cfg < read_from cfg + (Z.of_nat n + 1) * L ∧
  (read_from cfg ≤ read_to cfg →
   read_from cfg + Z.of_nat n * L ≤ read_to cfg) ∧
  (EDGE_BASED_RECONSTRUCTION_EDGE_BALANCING cfg = false →
   loops s = [] →
   L ≤ read_to cfg - read_from cfg →
   select_edges cfg fuel s =
     (Ok (Iter (read_from cfg) (read_from cfg + Z.of_nat n * L) L),
      {| loops := (λ k : nat,
                     fresh_Loop (read_from cfg + Z.of_nat k * L)
                                (read_from cfg + (Z.of_nat k + 1) * L))
                    <$> seq 0 n;
         trace := trace s ++
           [ev_Iter (read_from cfg) (read_from cfg + Z.of_nat n * L) L] |})).
Proof.
  intros stride n. subst stride n.
  rewrite whole_loops_eq, !read_loop_size_eq.
  intros Hrf Hrt HL Hfit Hfuel.
  destruct (fixed_mode_loops_whole fuel s) as (Hrun & Hnext & Hlast);
    try done.
  split; [done |]. split; [done |]. split; [done |].
  intros Hbal Hls Hge.
  rewrite select_edges_fixed_eq by done.
  erewrite bind_Ok by exact Hrun.
  rewrite Hls. simpl app.
  destruct (whole_loops cfg) as [|m] eqn:Hm; [lia |].
  set (f := λ k : nat, fresh_Loop (read_from cfg + Z.of_nat k * L)
                                  (read_from cfg + (Z.of_nat k + 1) * L)).
  erewrite (fixed_mode_edge_frames_cons (f 0%nat) (f <$> seq 1 m))
    by reflexivity.
  change (f 0%nat :: (f <$> seq 1 m)) with (f <$> seq 0 (S m)).
  rewrite last_fmap_seq. simpl.
  replace (read_from cfg + Z.of_nat 0 * L) with (read_from cfg) by lia.
  replace (read_from cfg + (Z.of_nat m + 1) * L)
    with (read_from cfg + Z.of_nat (S m) * L) by lia.
  done.
Qed.

(** C10 (as the code has it). In fixed mode, starting from no loops, with
    L = loop_size * read_step as line 51 computes it on [uint] and
    read_from, read_to [uint] indices:
    - when read_to - read_from < L and the first candidate edge does not
      wrap around (read_from + L is below 2^32), the loop of lines 57-59
      creates no Loop and line 61 calls [front()] on the empty vector: the
      outcome of loop preparation is undefined behaviour, not the
      consistency error of line 87;
    - when read_to - read_from >= L, no amount of fuel leads to that
      undefined access, and with 0 < L, read_to + L below 2^32 and enough
      fuel the edge frames are read from a non-empty [loops]. *)
Theorem fixed_mode_front_of_empty_loops (fuel : nat) (s : state) :
  let L := to_uint (loop_size cfg * read_step cfg) in
  EDGE_BASED_RECONSTRUCTION_EDGE_BALANCING cfg = false →
  loops s = [] →
  is_uint (read_from cfg) → is_uint (read_to cfg) →
  (read_to cfg - read_from cfg < L →
   read_from cfg + L < uint_modulus →
   (0 < fuel)%nat →
   fixed_mode_loops cfg fuel (to_uint (read_from cfg + L)) s = (Ok (), s) ∧
   select_edges cfg fuel s = (Undefined, s) ∧
   prepare_all_loops cfg fuel s = (Undefined, s)) ∧
  (L ≤ read_to cfg - read_from cfg →
   (select_edges cfg fuel s).1 ≠ Undefined ∧
   (0 < L → read_to cfg + L < uint_modulus →
    (Z.to_nat ((read_to cfg - read_from cfg) / L) < fuel)%nat →
    ∃ edge_frames l0 ls s',
      select_edges cfg fuel s = (Ok edge_frames, s') ∧
      loops s' = l0 :: ls)).
Proof.
  intros stride. subst stride.
  rewrite whole_loops_eq, !read_loop_size_eq.
  intros Hbal Hls Hrf Hrt. split.
  - intros Hlt Hfit Hfuel.
    assert (fixed_mode_loops cfg fuel (to_uint (read_from cfg + L)) s
            = (Ok (), s)) as Hrun.
    { destruct fuel as [|fuel]; [lia |]. simpl.
      pose proof read_loop_size_range as HL.
      rewrite (to_uint_small (read_from cfg + L))
        by (unfold is_uint in *; lia).
      rewrite (to_uint_small (read_to cfg)) by done.
      destruct (Z.leb_spec (read_from cfg + L) (read_to cfg)); [lia | done]. }
    assert (select_edges cfg fuel s = (Undefined, s)) as Hsel.
    { rewrite select_edges_fixed_eq by done.
      erewrite bind_Ok by exact Hrun.
      by apply fixed_mode_edge_frames_nil. }
    split; [done |]. split; [done |].
    unfold prepare_all_loops. by erewrite bind_Undefined by exact Hsel.
  - intros Hge. split.
    + rewrite select_edges_fixed_eq by done.
      destruct fuel as [|fuel]; [done |]. simpl fixed_mode_loops.
      pose proof read_loop_size_range as HL.
      rewrite (to_uint_small (read_from cfg + L))
        by (unfold is_uint in *; lia).
      rewrite (to_uint_small (read_to cfg)) by done.
      destruct (Z.leb_spec (read_from cfg + L) (read_to cfg)); [| lia].
      rewrite Loop_Loop_eq.
      destruct (to_uint (read_from cfg + L -
                         to_uint (read_from cfg + L - L)) =? 0); [done |].
      rewrite !bind_assoc.
      erewrite (bind_Ok (lift _)) by reflexivity.
      rewrite bind_assoc.
      erewrite (bind_Ok (push_back _)) by apply push_back_run.
      rewrite Hls. simpl app.
      match goal with
      | |- context [(fixed_mode_loops cfg fuel ?i ≫= _) ?s1] =>
        destruct (fixed_mode_loops_extends fuel i s1) as [Hne [more Hmore]];
        destruct (fixed_mode_loops cfg fuel i s1) as [o s2] eqn:Hrun
      end.
      simpl in Hne, Hmore.
      destruct o as [[] | e | |]; [| | done |].
      * erewrite bind_Ok by exact Hrun.
        erewrite fixed_mode_edge_frames_cons by exact Hmore. done.
      * by erewrite bind_Throw by exact Hrun.
      * by erewrite bind_OutOfFuel by exact Hrun.
    + intros HL Hmax Hfuel.
      rewrite select_edges_fixed by (done || (unfold is_uint in *; lia)).
      pose proof (whole_loops_bounds HL ltac:(lia)) as [_ Hhi].
      destruct (whole_loops cfg) as [|m] eqn:Hm; [lia |].
      by eexists _, _, _, _.
Qed.

End fixed_mode.

(** ** The consistency check of lines 86-88 *)

Lemma emits_set_loop_edges P efs sac_t icp_t kp i :
  emits P (set_loop_edges efs sac_t icp_t kp i).
Proof.
  unfold set_loop_edges.
  repeat (apply emits_bind;
          [first [apply emits_get_loops | apply emits_at_index] | intros ?]).
  apply emits_set_loops.
Qed.

(** [align_edges] always calls the filter and the two aligners. *)
Lemma align_edges_trace efs s :
  trace (align_edges efs s).2 =
    trace s ++ [ev_filter; ev_sac_align; ev_icp_align].
Proof.
  unfold align_edges.
  do 3 (erewrite bind_Ok by reflexivity).
  match goal with
  | |- context [for_each ?idx ?body ?s1] =>
    destruct (emits_for_each (λ _, False) idx body
                (emits_set_loop_edges _ _ _ _ _) s1) as [evs [Htr Hall]];
    rewrite Htr
  end.
  destruct evs as [|e evs]; [| by inversion Hall].
  simpl. by rewrite app_nil_r, <- !app_assoc.
Qed.

(** C6. In both modes, once edge selection and edge-frame collection
    have returned (having called no aligner), loop preparation throws the
    consistency error when the number of edge frames is not the number of
    loops plus one, in the state edge selection left, and otherwise goes
    on to the alignment of the edge frames; so a run in which an aligner
    is called has as many loops as edge frames minus one. *)
Theorem edge_count_checked_before_alignment
    (cfg : Config) (fuel : nat) (s s1 : state) (edge_frames : list Frame) :
  select_edges cfg fuel s = (Ok edge_frames, s1) →
  (∃ evs, trace s1 = trace s ++ evs ∧
          Forall (λ e, is_alignment e = false) evs) ∧
  ((length (loops s1) + 1)%nat ≠ length edge_frames →
   prepare_all_loops cfg fuel s = (Throw edge_count_mismatch, s1)) ∧
  ((length (loops s1) + 1)%nat = length edge_frames →
   prepare_all_loops cfg fuel s = align_edges edge_frames s1 ∧
   trace (align_edges edge_frames s1).2 =
     trace s1 ++ [ev_filter; ev_sac_align; ev_icp_align]) ∧
  (∀ o s' evs,
     prepare_all_loops cfg fuel s = (o, s') →
     trace s' = trace s ++ evs →
     Exists (λ e, is_alignment e = true) evs →
     (length (loops s1) + 1)%nat = length edge_frames).
Proof.
  intros Hsel.
  assert (∃ evs, trace s1 = trace s ++ evs ∧
                 Forall (λ e, is_alignment e = false) evs) as Hquiet.
  { destruct (emits_select_edges (λ e, is_alignment e = false) cfg fuel
                ltac:(done) ltac:(done) s) as [evs Hevs].
    rewrite Hsel in Hevs. by exists evs. }
  assert ((length (loops s1) + 1)%nat ≠ length edge_frames →
          prepare_all_loops cfg fuel s = (Throw edge_count_mismatch, s1))
    as Hthrow.
  { intros Hne. unfold prepare_all_loops.
    erewrite bind_Ok by exact Hsel.
    erewrite bind_Throw; [done |].
    unfold check_edge_count. erewrite bind_Ok by reflexivity.
    by destruct (decide _). }
  split; [done |]. split; [done |]. split.
  - intros Heq. split; [| apply align_edges_trace].
    unfold prepare_all_loops.
    erewrite bind_Ok by exact Hsel.
    erewrite bind_Ok; [done |].
    unfold check_edge_count. erewrite bind_Ok by reflexivity.
    by destruct (decide _).
  - intros o s' evs Hrun Htr Haligned.
    destruct (decide ((length (loops s1) + 1)%nat = length edge_frames))
      as [|Hne]; [done | exfalso].
    rewrite (Hthrow Hne) in Hrun. injection Hrun as _ <-.
    destruct Hquiet as [evs1 [Htr1 Hall]].
    rewrite Htr1 in Htr. apply app_inv_head in Htr. subst evs1.
    apply Exists_exists in Haligned as [e [Hin He]].
    rewrite Forall_forall in Hall. specialize (Hall e Hin). congruence.
Qed.

(** ** The Global Edge Aligner: lines 104-112 *)

Section align_edges.

Variables (frames : list Frame) (sac_t icp_t : list Matrix4f).
Variable kp : list KeypointsFrame.

Lemma with_edge_data_is_Some (j : nat) (l : Loop) :
  (S j < length frames)%nat → (S j < length icp_t)%nat →
  (S j < length sac_t)%nat → (j < length kp)%nat →
  is_Some (with_edge_data frames sac_t icp_t kp j l).
Proof.
  intros Hf Hi Hs Hk. unfold with_edge_data.
  destruct (lookup_lt_is_Some_2 frames j ltac:(lia)) as [? ->].
  destruct (lookup_lt_is_Some_2 frames (S j) Hf) as [? ->].
  destruct (lookup_lt_is_Some_2 icp_t j ltac:(lia)) as [? ->].
  destruct (lookup_lt_is_Some_2 sac_t j ltac:(lia)) as [? ->].
  destruct (lookup_lt_is_Some_2 icp_t (S j) Hi) as [? ->].
  destruct (lookup_lt_is_Some_2 sac_t (S j) Hs) as [? ->].
  destruct (lookup_lt_is_Some_2 kp j Hk) as [? ->].
  by eexists.
Qed.

Lemma with_edge_data_transformations (j : nat) (l l' : Loop) :
  with_edge_data frames sac_t icp_t kp j l = Some l' →
  ∃ icp_first sac_first icp_second sac_second,
    icp_t !! j = Some icp_first ∧ sac_t !! j = Some sac_first ∧
    icp_t !! S j = Some icp_second ∧ sac_t !! S j = Some sac_second ∧
    edge_transformations l' =
      (mmul icp_first sac_first, mmul icp_second sac_second).
Proof.
  unfold with_edge_data. intros Hl'.
  destruct (frames !! j); [| done].
  destruct (frames !! S j); [| done].
  destruct (icp_t !! j) as [a1|]; [| done].
  destruct (sac_t !! j) as [b1|]; [| done].
  destruct (icp_t !! S j) as [a2|]; [| done].
  destruct (sac_t !! S j) as [b2|]; [| done].
  destruct (kp !! j); [| done].
  simpl in Hl'. injection Hl' as <-. by exists a1, b1, a2, b2.
Qed.

Lemma set_loop_edges_run (j : nat) (l l' : Loop) (s : state) :
  loops s !! j = Some l →
  with_edge_data frames sac_t icp_t kp j l = Some l' →
  set_loop_edges frames sac_t icp_t kp (S j) s =
    (Ok (), {| loops := <[j := l']> (loops s); trace := trace s |}).
Proof.
  unfold with_edge_data, set_loop_edges. intros Hl Hl'.
  replace (S j - 1)%nat with j by lia.
  erewrite bind_Ok by reflexivity.
  destruct (frames !! j) eqn:?; [| done].
  destruct (frames !! S j) eqn:?; [| done].
  destruct (icp_t !! j) eqn:?; [| done].
  destruct (sac_t !! j) eqn:?; [| done].
  destruct (icp_t !! S j) eqn:?; [| done].
  destruct (sac_t !! S j) eqn:?; [| done].
  destruct (kp !! j) eqn:?; [| done].
  simpl in Hl'. injection Hl' as <-.
  by repeat (erewrite bind_Ok by (by apply at_index_Some)).
Qed.

(** Iterations [k+1 .. k+m] of the loop assign loops [k .. k+m-1] and
    leave the others alone. *)
Lemma set_loop_edges_range (m : nat) : ∀ (k : nat) (s : state),
  (k + m ≤ length (loops s))%nat →
  (k + m < length frames)%nat → (k + m < length icp_t)%nat →
  (k + m < length sac_t)%nat → (k + m ≤ length kp)%nat →
  ∃ s',
    for_each (seq (S k) m) (set_loop_edges frames sac_t icp_t kp) s
      = (Ok (), s') ∧
    length (loops s') = length (loops s) ∧
    (∀ j, (j < k ∨ k + m ≤ j)%nat → loops s' !! j = loops s !! j) ∧
    (∀ j, (k ≤ j < k + m)%nat →
          loops s' !! j = loops s !! j ≫= with_edge_data frames sac_t icp_t kp j).
Proof.
  induction m as [|m IH]; intros k s Hls Hf Hi Hs Hk.
  - exists s. split; [done |]. split; [done |]. split; [done |]. lia.
  - destruct (lookup_lt_is_Some_2 (loops s) k ltac:(lia)) as [l Hl].
    destruct (with_edge_data_is_Some k l) as [l' Hl']; try lia.
    destruct (IH (S k)
      {| loops := <[k := l']> (loops s); trace := trace s |})
      as [s' [Hrun [Hlen [Hout Hin]]]];
      simpl; rewrite ?length_insert; try lia.
    exists s'. simpl in Hlen, Hout, Hin. rewrite length_insert in Hlen.
    split.
    { simpl for_each.
      erewrite bind_Ok by (by apply (set_loop_edges_run k l l')). done. }
    split; [done |]. split.
    + intros j Hj. rewrite Hout by lia.
      apply list_lookup_insert_ne. lia.
    + intros j Hj. destruct (decide (j = k)) as [->|Hne].
      * rewrite Hout by lia.
        rewrite list_lookup_insert_eq by lia. rewrite Hl. simpl. done.
      * rewrite Hin by lia.
        rewrite list_lookup_insert_ne by lia. done.
Qed.

End align_edges.

Section edge_continuity.

Variable edge_frame_list : list Frame.

Local Abbreviation filtered := (PcdFilters_filter edge_frame_list).
Local Abbreviation linear_sac := (sac filtered Identity).
Local Abbreviation linear_icp :=
  (icp (reg_transformed_frames linear_sac) Identity
       (reg_getTransformedKeypoints linear_sac)).

(** C2 (as the code has it). The loop of lines 104-112 runs over the
    transformations the refinement aligner returned, whose number is
    compared with nothing. When there are as many of them as loops plus
    one, and the coarse aligner's transformations, the filtered edge
    frames and the keypoint sets are as many as that loop reads
    (icp_t.size() <= sac_t.size(), icp_t.size() <= edge_frames.size(),
    loops.size() <= kp.size()), the Global Edge Aligner returns normally
    and, for any two adjacent loops i and i+1, the second boundary
    transformation of loop i and the first of loop i+1 are both
    icp_t[i+1] * sac_t[i+1], the composed transformation of their shared
    edge frame. *)
Theorem adjacent_loops_share_edge_transformation (s : state) :
  length (reg_align linear_icp) = (length (loops s) + 1)%nat →
  (length (reg_align linear_icp) ≤ length (reg_align linear_sac))%nat →
  (length (reg_align linear_icp) ≤ length filtered)%nat →
  (length (loops s) ≤ length (reg_getKeypoints linear_sac))%nat →
  ∃ s',
    align_edges edge_frame_list s = (Ok (), s') ∧
    length (loops s') = length (loops s) ∧
    ∀ i l l_next,
      loops s' !! i = Some l → loops s' !! S i = Some l_next →
      ∃ refine_T coarse_T,
        reg_align linear_icp !! S i = Some refine_T ∧
        reg_align linear_sac !! S i = Some coarse_T ∧
        (edge_transformations l).2 = mmul refine_T coarse_T ∧
        (edge_transformations l_next).1 = mmul refine_T coarse_T.
Proof.
  intros Hicp Hsac Hfiltered Hkp.
  unfold align_edges. do 3 (erewrite bind_Ok by reflexivity).
  match goal with
  | |- context [for_each _ _ ?s1] => set (s1' := s1)
  end.
  destruct (set_loop_edges_range filtered (reg_align linear_sac)
              (reg_align linear_icp) (reg_getKeypoints linear_sac)
              (length (reg_align linear_icp) - 1) 0 s1')
    as [s' [Hrun [Hlen [_ Hin]]]]; simpl; try lia.
  exists s'. split; [done |]. split; [done |].
  intros i l l_next Hl Hnext.
  pose proof (lookup_lt_Some _ _ _ Hl) as Hi.
  pose proof (lookup_lt_Some _ _ _ Hnext) as HSi.
  rewrite Hlen in Hi, HSi. simpl in Hi, HSi.
  rewrite Hin in Hl by (simpl; lia).
  rewrite Hin in Hnext by (simpl; lia).
  apply bind_Some in Hl as [l0 [_ Hl]].
  apply bind_Some in Hnext as [l1 [_ Hnext]].
  apply with_edge_data_transformations in Hl
    as (a1 & b1 & a2 & b2 & _ & _ & Ha2 & Hb2 & Hl).
  apply with_edge_data_transformations in Hnext
    as (a2' & b2' & a3 & b3 & Ha2' & Hb2' & _ & _ & Hnext).
  exists a2, b2. rewrite Hl, Hnext. simpl.
  split; [done |]. split; [done |]. split; [done |]. congruence.
Qed.

End edge_continuity.

(** ** The Loop Processor *)

Lemma compose_transformations_range (sac_t icp_t : list Matrix4f)
    (s : state) (m : nat) : ∀ k : nat,
  (k + m ≤ length icp_t)%nat → (k + m ≤ length sac_t)%nat →
  fold_each (seq k m)
    (λ i result_t,
       icp_i ← at_index icp_t i;
       sac_i ← at_index sac_t i;
       mret (result_t ++ [mmul icp_i sac_i]))
    (zip_with mmul (take k icp_t) (take k sac_t)) s =
  (Ok (zip_with mmul (take (k + m) icp_t) (take (k + m) sac_t)), s).
Proof.
  induction m as [|m IH]; intros k Hi Hs; simpl.
  - by rewrite Nat.add_0_r.
  - destruct (lookup_lt_is_Some_2 icp_t k ltac:(lia)) as [a Ha].
    destruct (lookup_lt_is_Some_2 sac_t k ltac:(lia)) as [b Hb].
    rewrite bind_assoc. erewrite bind_Ok by (by apply at_index_Some).
    rewrite bind_assoc. erewrite bind_Ok by (by apply at_index_Some).
    erewrite bind_Ok by reflexivity.
    replace (zip_with mmul (take k icp_t) (take k sac_t) ++ [mmul a b])
      with (zip_with mmul (take (S k) icp_t) (take (S k) sac_t)).
    + rewrite IH by lia. by rewrite Nat.add_succ_r.
    + rewrite (take_S_r icp_t k a), (take_S_r sac_t k b) by done.
      rewrite zip_with_app; [done |]. rewrite !length_take. lia.
Qed.

Lemma compose_transformations_run (sac_t icp_t : list Matrix4f) (s : state) :
  (length icp_t ≤ length sac_t)%nat →
  compose_transformations sac_t icp_t s =
    (Ok (zip_with mmul icp_t sac_t), s).
Proof.
  intros Hlen. unfold compose_transformations.
  pose proof (compose_transformations_range sac_t icp_t s
                (length icp_t) 0 ltac:(lia) ltac:(lia)) as Hrun.
  simpl in Hrun. rewrite Hrun.
  rewrite take_ge by done. by rewrite zip_with_take_r.
Qed.

Lemma apply_correction_range (c : list Matrix4f) (s : state) (m : nat) :
  ∀ (k : nat) (result_t : list Matrix4f),
  (k + m ≤ length c)%nat → (k + m ≤ length result_t)%nat →
  ∃ result_t',
    fold_each (seq k m)
      (λ i result_t,
         c_i ← at_index c i;
         r_i ← at_index result_t i;
         mret (<[i := mmul c_i r_i]> result_t))
      result_t s = (Ok result_t', s) ∧
    length result_t' = length result_t ∧
    (∀ j, (j < k ∨ k + m ≤ j)%nat → result_t' !! j = result_t !! j) ∧
    (∀ j, (k ≤ j < k + m)%nat →
          result_t' !! j = corrected_at c result_t j).
Proof.
  induction m as [|m IH]; intros k result_t Hc Hr.
  - exists result_t. split; [done |]. split; [done |]. split; [done |]. lia.
  - destruct (lookup_lt_is_Some_2 c k ltac:(lia)) as [c_k Hck].
    destruct (lookup_lt_is_Some_2 result_t k ltac:(lia)) as [r_k Hrk].
    destruct (IH (S k) (<[k := mmul c_k r_k]> result_t))
      as [result_t' [Hrun [Hlen [Hout Hin]]]];
      rewrite ?length_insert; try lia.
    rewrite length_insert in Hlen.
    exists result_t'. split.
    { simpl fold_each.
      rewrite bind_assoc. erewrite bind_Ok by (by apply at_index_Some).
      rewrite bind_assoc. erewrite bind_Ok by (by apply at_index_Some).
      erewrite bind_Ok by reflexivity. done. }
    split; [done |]. split.
    + intros j Hj. rewrite Hout by lia.
      apply list_lookup_insert_ne. lia.
    + intros j Hj. unfold corrected_at in *.
      destruct (decide (j = k)) as [->|Hne].
      * rewrite Hout by lia.
        rewrite list_lookup_insert_eq by lia. by rewrite Hck, Hrk.
      * rewrite Hin by lia.
        by rewrite list_lookup_insert_ne by lia.
Qed.

(** A correction no longer than [result_t] is applied from index 1 to
    its own end; index 0 and what lies beyond it are left as they are. *)
Lemma apply_correction_run (c result_t : list Matrix4f) (s : state) :
  (length c ≤ length result_t)%nat →
  ∃ result_t',
    apply_correction c result_t s = (Ok result_t', s) ∧
    length result_t' = length result_t ∧
    result_t' !! 0%nat = result_t !! 0%nat ∧
    (∀ j, (1 ≤ j < length c)%nat →
          result_t' !! j = corrected_at c result_t j) ∧
    (∀ j, (length c ≤ j)%nat → result_t' !! j = result_t !! j).
Proof.
  intros Hlen. unfold apply_correction.
  destruct (decide (length c = 0)%nat) as [Hc|Hc].
  - rewrite Hc. exists result_t. simpl.
    split; [done |]. split; [done |]. split; [done |]. split; [lia | done].
  - destruct (apply_correction_range c s (length c - 1) 1 result_t)
      as [result_t' [Hrun [Hl [Hout Hin]]]]; try lia.
    exists result_t'. split; [done |]. split; [done |].
    split; [apply Hout; lia |]. split.
    + intros j Hj. apply Hin. lia.
    + intros j Hj. apply Hout. lia.
Qed.

Lemma fold_each_app {A} (idx1 idx2 : list nat) (body : nat → A → M A) :
  ∀ (a : A) (s : state),
  fold_each (idx1 ++ idx2) body a s =
    (fold_each idx1 body a ≫= fold_each idx2 body) s.
Proof.
  induction idx1 as [|i idx1 IH]; intros a s; simpl; [done |].
  rewrite bind_assoc. apply bind_ext. intros a' s'. apply IH.
Qed.

(** A correction longer than [result_t] (and of two transformations at
    least) reads [result_t] past its end. *)
Lemma apply_correction_overrun (c result_t : list Matrix4f) (s : state) :
  (length result_t < length c)%nat → (2 ≤ length c)%nat →
  apply_correction c result_t s = (Undefined, s).
Proof.
  intros Hlong Htwo. unfold apply_correction.
  set (k := (length result_t `max` 1)%nat).
  replace (length c - 1)%nat with ((k - 1) + S (length c - 1 - k))%nat
    by lia.
  rewrite seq_app, fold_each_app.
  assert (∃ result_t',
    fold_each (seq 1 (k - 1))
      (λ i result_t,
         c_i ← at_index c i;
         r_i ← at_index result_t i;
         mret (<[i := mmul c_i r_i]> result_t))
      result_t s = (Ok result_t', s) ∧
    length result_t' = length result_t) as (result_t' & Hrun & Hlen).
  { destruct (decide (length result_t = 0)%nat) as [Hr|Hr].
    - exists result_t. replace (k - 1)%nat with 0%nat by lia. done.
    - destruct (apply_correction_range c s (k - 1) 1 result_t)
        as (r' & Hrun & Hlen & _); try lia.
      by exists r'. }
  erewrite bind_Ok by exact Hrun.
  replace (1 + (k - 1))%nat with k by lia. simpl fold_each.
  destruct (lookup_lt_is_Some_2 c k ltac:(lia)) as [c_k Hck].
  rewrite !bind_assoc. erewrite bind_Ok by (by apply at_index_Some).
  rewrite bind_assoc. erewrite bind_Undefined; [done |].
  apply at_index_None. apply lookup_ge_None. lia.
Qed.

Section loop_processor.

Variables (cfg : Config) (loop : Loop).

Local Abbreviation inner_frames :=
  (PcdFilters_filter
     (Iter (edge_frames_indexes loop).1 (edge_frames_indexes loop).2
           (read_step cfg))).
Local Abbreviation linear_sac :=
  (sac inner_frames (edge_transformations loop).1).
Local Abbreviation linear_icp :=
  (icp (reg_transformed_frames linear_sac) Identity
       (reg_getTransformedKeypoints linear_sac)).
Local Abbreviation sac_t := (reg_align linear_sac).
Local Abbreviation icp_t := (reg_align linear_icp).
Local Abbreviation alignment_calls :=
  [ev_Iter (edge_frames_indexes loop).1 (edge_frames_indexes loop).2
           (read_step cfg);
   ev_filter; ev_sac_align; ev_icp_align].

Lemma interior_alignment_run (s : state) :
  (length icp_t ≤ length sac_t)%nat →
  interior_alignment cfg loop s =
    (Ok (linear_sac, linear_icp, zip_with mmul icp_t sac_t),
     {| loops := loops s; trace := trace s ++ alignment_calls |}).
Proof.
  intros Hlen. unfold interior_alignment.
  do 4 (erewrite bind_Ok by reflexivity).
  erewrite bind_Ok by (by apply compose_transformations_run).
  simpl. by rewrite <- !app_assoc.
Qed.

(** C3. When the refinement aligner returns no more transformations than
    the coarse one, interior alignment calls the coarse aligner on the
    filtered interior frames with the loop's first boundary
    transformation, the refinement aligner on the coarse output with the
    identity and the coarse aligner's transformed keypoints, and returns
    result_t with result_t[i] = icp_t[i] * sac_t[i] at every index i of
    icp_t, index 0 included. *)
Theorem interior_alignment_composes_refine_coarse (s : state) :
  (length icp_t ≤ length sac_t)%nat →
  interior_alignment cfg loop s =
    (Ok (sac inner_frames (edge_transformations loop).1,
         icp (reg_transformed_frames linear_sac) Identity
             (reg_getTransformedKeypoints linear_sac),
         zip_with mmul icp_t sac_t),
     {| loops := loops s; trace := trace s ++ alignment_calls |}) ∧
  length (zip_with mmul icp_t sac_t) = length icp_t ∧
  ∀ i refine_T, icp_t !! i = Some refine_T →
    ∃ coarse_T, sac_t !! i = Some coarse_T ∧
      zip_with mmul icp_t sac_t !! i = Some (mmul refine_T coarse_T).
Proof.
  intros Hlen. split; [by apply interior_alignment_run |].
  split; [rewrite length_zip_with; lia |].
  intros i refine_T Hi.
  pose proof (lookup_lt_Some _ _ _ Hi) as Hlt.
  destruct (lookup_lt_is_Some_2 sac_t i ltac:(lia)) as [coarse_T Hs].
  exists coarse_T. split; [done |].
  rewrite lookup_zip_with, Hi, Hs. done.
Qed.

Section correction.

Variables (frames : list Frame) (keypoints : list KeypointsFrame).
Variable result_t : list Matrix4f.

Local Abbreviation elch_c :=
  (elch frames keypoints result_t (edge_keypoints loop)).
Local Abbreviation lum_c r1 :=
  (lum (cor_transformed_frames elch_c) (cor_getTransformedKeypoints elch_c)
       r1 (edge_keypoints loop)).

Lemma loop_closure_correction_run (s : state) :
  (length (cor_correct elch_c) ≤ length result_t)%nat →
  (∀ fs k ts ek, (length (cor_correct (lum fs k ts ek)) ≤ length ts)%nat) →
  ∃ r1 r2,
    loop_closure_correction loop frames keypoints result_t s =
      (Ok (cor_getTransformedKeypoints (lum_c r1), r2),
       {| loops := loops s;
          trace := trace s ++ [ev_elch_correct; ev_lum_correct] |}) ∧
    length r1 = length result_t ∧ length r2 = length result_t ∧
    r1 !! 0%nat = result_t !! 0%nat ∧ r2 !! 0%nat = r1 !! 0%nat ∧
    (∀ j, (1 ≤ j < length (cor_correct elch_c))%nat →
          r1 !! j = corrected_at (cor_correct elch_c) result_t j) ∧
    (∀ j, (length (cor_correct elch_c) ≤ j)%nat → r1 !! j = result_t !! j) ∧
    (∀ j, (1 ≤ j < length (cor_correct (lum_c r1)))%nat →
          r2 !! j = corrected_at (cor_correct (lum_c r1)) r1 j) ∧
    (∀ j, (length (cor_correct (lum_c r1)) ≤ j)%nat → r2 !! j = r1 !! j).
Proof.
  intros Helch Hlum. unfold loop_closure_correction.
  erewrite bind_Ok by reflexivity.
  match goal with
  | |- context [(apply_correction ?c ?r ≫= _) ?s1] =>
    destruct (apply_correction_run c r s1 Helch)
      as (r1 & Hrun1 & Hlen1 & Hzero1 & Hin1 & Hout1)
  end.
  erewrite bind_Ok by exact Hrun1.
  erewrite bind_Ok by reflexivity.
  match goal with
  | |- context [(apply_correction ?c ?r ≫= _) ?s1] =>
    destruct (apply_correction_run c r s1 (Hlum _ _ _ _))
      as (r2 & Hrun2 & Hlen2 & Hzero2 & Hin2 & Hout2)
  end.
  erewrite bind_Ok by exact Hrun2.
  exists r1, r2. simpl. rewrite <- !app_assoc. simpl.
  split; [done |]. split; [done |]. split; [congruence |].
  by repeat split.
Qed.

(** The two passes one after the other: what the first pass leaves, and,
    when the second correction is no longer than that, what the second
    pass leaves. *)
Lemma loop_closure_correction_passes (s : state) :
  (length (cor_correct elch_c) ≤ length result_t)%nat →
  ∃ r1,
    length r1 = length result_t ∧
    r1 !! 0%nat = result_t !! 0%nat ∧
    (∀ j, (1 ≤ j < length (cor_correct elch_c))%nat →
          r1 !! j = corrected_at (cor_correct elch_c) result_t j) ∧
    (∀ j, (length (cor_correct elch_c) ≤ j)%nat → r1 !! j = result_t !! j) ∧
    ((length (cor_correct (lum_c r1)) ≤ length r1)%nat →
     ∃ r2,
       loop_closure_correction loop frames keypoints result_t s =
         (Ok (cor_getTransformedKeypoints (lum_c r1), r2),
          {| loops := loops s;
             trace := trace s ++ [ev_elch_correct; ev_lum_correct] |}) ∧
       length r2 = length result_t ∧
       r2 !! 0%nat = r1 !! 0%nat ∧
       (∀ j, (1 ≤ j < length (cor_correct (lum_c r1)))%nat →
             r2 !! j = corrected_at (cor_correct (lum_c r1)) r1 j) ∧
       (∀ j, (length (cor_correct (lum_c r1)) ≤ j)%nat →
             r2 !! j = r1 !! j)).
Proof.
  intros Helch.
  destruct (apply_correction_run (cor_correct elch_c) result_t
              {| loops := loops s; trace := trace s ++ [ev_elch_correct] |}
              Helch)
    as (r1 & Hrun1 & Hlen1 & Hzero1 & Hin1 & Hout1).
  exists r1. split; [done |]. split; [done |]. split; [done |].
  split; [done |]. intros Hlum.
  destruct (apply_correction_run (cor_correct (lum_c r1)) r1
              {| loops := loops s;
                 trace := (trace s ++ [ev_elch_correct])
                          ++ [ev_lum_correct] |} Hlum)
    as (r2 & Hrun2 & Hlen2 & Hzero2 & Hin2 & Hout2).
  exists r2. split; [| split; [congruence | by repeat split]].
  unfold loop_closure_correction.
  erewrite bind_Ok by reflexivity.
  erewrite bind_Ok by exact Hrun1.
  erewrite bind_Ok by reflexivity.
  erewrite bind_Ok by exact Hrun2.
  simpl. by rewrite <- !app_assoc.
Qed.

(** A first correction longer than [result_t] (and of two transformations
    at least) is read past the end of [result_t], before the second
    corrector is called. *)
Lemma loop_closure_correction_overrun (s : state) :
  (length result_t < length (cor_correct elch_c))%nat →
  (2 ≤ length (cor_correct elch_c))%nat →
  loop_closure_correction loop frames keypoints result_t s =
    (Undefined,
     {| loops := loops s; trace := trace s ++ [ev_elch_correct] |}).
Proof.
  intros Hlong Htwo. unfold loop_closure_correction.
  erewrite bind_Ok by reflexivity.
  match goal with
  | |- context [(apply_correction ?c ?r ≫= _) ?s1] =>
    pose proof (apply_correction_overrun c r s1 Hlong Htwo) as Hrun
  end.
  by erewrite bind_Undefined by exact Hrun.
Qed.

End correction.

Local Abbreviation pre_t := (zip_with mmul icp_t sac_t).
Local Abbreviation elch_c :=
  (elch (reg_transformed_frames linear_icp)
        (reg_getTransformedKeypoints linear_icp) pre_t (edge_keypoints loop)).
Local Abbreviation lum_c r1 :=
  (lum (cor_transformed_frames elch_c) (cor_getTransformedKeypoints elch_c)
       r1 (edge_keypoints loop)).

(** [process_one_loop] with both corrections no longer than what they
    correct. *)
Lemma process_one_loop_corrected (s : state) :
  EDGE_BASED_RECONSTRUCTION_ELCH_LUM cfg = true →
  (length icp_t ≤ length sac_t)%nat →
  (length (cor_correct elch_c) ≤ length pre_t)%nat →
  (∀ fs k ts ek, (length (cor_correct (lum fs k ts ek)) ≤ length ts)%nat) →
  ∃ r1 r2,
    process_one_loop cfg loop s =
      (Ok {| inner_transformations := r2;
             inner_t_fitness_scores := reg_getFitnessScores linear_icp;
             edge_frames_indexes := edge_frames_indexes loop;
             edge_frames := edge_frames loop;
             edge_keypoints := edge_keypoints loop;
             edge_transformations := edge_transformations loop |},
       {| loops := loops s;
          trace := trace s ++ alignment_calls ++
                   [ev_elch_correct; ev_lum_correct; ev_vizualization] |}) ∧
    length r1 = length pre_t ∧ length r2 = length pre_t ∧
    r1 !! 0%nat = pre_t !! 0%nat ∧ r2 !! 0%nat = r1 !! 0%nat ∧
    (∀ j, (1 ≤ j < length (cor_correct elch_c))%nat →
          r1 !! j = corrected_at (cor_correct elch_c) pre_t j) ∧
    (∀ j, (length (cor_correct elch_c) ≤ j)%nat → r1 !! j = pre_t !! j) ∧
    (∀ j, (1 ≤ j < length (cor_correct (lum_c r1)))%nat →
          r2 !! j = corrected_at (cor_correct (lum_c r1)) r1 j) ∧
    (∀ j, (length (cor_correct (lum_c r1)) ≤ j)%nat → r2 !! j = r1 !! j).
Proof.
  intros Hon Hlen Helch Hlum. unfold process_one_loop.
  erewrite bind_Ok by (by apply interior_alignment_run).
  rewrite Hon.
  match goal with
  | |- context [(loop_closure_correction loop ?f ?k ?r ≫= _) ?s1] =>
    destruct (loop_closure_correction_run f k r s1 Helch Hlum)
      as (r1 & r2 & Hrun & Hrest)
  end.
  erewrite bind_Ok by exact Hrun.
  exists r1, r2. split; [| exact Hrest].
  cbv beta iota. erewrite bind_Ok by reflexivity.
  simpl. by rewrite <- !app_assoc.
Qed.

(** C4. With loop-closure correction enabled (and corrections no longer
    than the loop's transformations), each pass assigns
    result_t[j] = c[j] * result_t[j] at the indices 1 <= j < c.size()
    only: index 0 keeps, after the first pass and in the finished Loop,
    the transformation it had before the correction step. *)
Theorem correction_leaves_index_0 (s : state) :
  EDGE_BASED_RECONSTRUCTION_ELCH_LUM cfg = true →
  (length icp_t ≤ length sac_t)%nat →
  (∀ fs k ts ek, (length (cor_correct (elch fs k ts ek)) ≤ length ts)%nat) →
  (∀ fs k ts ek, (length (cor_correct (lum fs k ts ek)) ≤ length ts)%nat) →
  ∃ loop' s' r1,
    process_one_loop cfg loop s = (Ok loop', s') ∧
    r1 !! 0%nat = pre_t !! 0%nat ∧
    inner_transformations loop' !! 0%nat = pre_t !! 0%nat ∧
    (∀ j, (1 ≤ j < length (cor_correct elch_c))%nat →
          r1 !! j = corrected_at (cor_correct elch_c) pre_t j) ∧
    (∀ j, (1 ≤ j < length (cor_correct (lum_c r1)))%nat →
          inner_transformations loop' !! j
            = corrected_at (cor_correct (lum_c r1)) r1 j).
Proof.
  intros Hon Hlen Helch Hlum.
  destruct (process_one_loop_corrected s Hon Hlen (Helch _ _ _ _) Hlum)
    as (r1 & r2 & Hrun & _ & _ & Hz1 & Hz2 & Hin1 & _ & Hin2 & _).
  eexists _, _, r1. split; [exact Hrun |]. simpl.
  split; [done |]. split; [congruence |]. by split.
Qed.

(** C5. With loop-closure correction disabled, the finished Loop has
    inner_transformations = result_t of interior alignment
    (icp_t[i] * sac_t[i] for every i) and the fitness scores of the
    refinement aligner; no corrector is called. *)
Theorem correction_disabled_keeps_result_t (s : state) :
  EDGE_BASED_RECONSTRUCTION_ELCH_LUM cfg = false →
  (length icp_t ≤ length sac_t)%nat →
  process_one_loop cfg loop s =
    (Ok {| inner_transformations := zip_with mmul icp_t sac_t;
           inner_t_fitness_scores := reg_getFitnessScores linear_icp;
           edge_frames_indexes := edge_frames_indexes loop;
           edge_frames := edge_frames loop;
           edge_keypoints := edge_keypoints loop;
           edge_transformations := edge_transformations loop |},
     {| loops := loops s;
        trace := trace s ++ alignment_calls ++ [ev_vizualization] |}) ∧
  Forall (λ e, is_correction e = false)
         (alignment_calls ++ [ev_vizualization]).
Proof.
  intros Hoff Hlen. split.
  - unfold process_one_loop.
    erewrite bind_Ok by (by apply interior_alignment_run).
    rewrite Hoff. erewrite bind_Ok by reflexivity.
    cbv beta iota. erewrite bind_Ok by reflexivity.
    simpl. by rewrite <- !app_assoc.
  - by repeat constructor.
Qed.

(** C8 (as the code has it). The length of what a corrector returns is
    not checked. With loop-closure correction enabled, a correction no
    longer than the transformations it corrects (in particular a shorter
    one) is no error. A first correction c of that kind is applied at the
    indices 1 <= j < c.size(), and the transformations at index 0 and
    from c.size() on are kept as they were; this gives r1. When the
    second correction, computed from r1, is no longer than r1 either, it
    is applied to r1 likewise, and the Loop is finished normally, with as
    many transformations as interior alignment composed. *)
Theorem correction_length_not_checked (s : state) :
  EDGE_BASED_RECONSTRUCTION_ELCH_LUM cfg = true →
  (length icp_t ≤ length sac_t)%nat →
  (length (cor_correct elch_c) ≤ length pre_t)%nat →
  ∃ r1,
    length r1 = length pre_t ∧
    r1 !! 0%nat = pre_t !! 0%nat ∧
    (∀ j, (1 ≤ j < length (cor_correct elch_c))%nat →
          r1 !! j = corrected_at (cor_correct elch_c) pre_t j) ∧
    (∀ j, (length (cor_correct elch_c) ≤ j)%nat → r1 !! j = pre_t !! j) ∧
    ((length (cor_correct (lum_c r1)) ≤ length r1)%nat →
     ∃ loop' s',
       process_one_loop cfg loop s = (Ok loop', s') ∧
       length (inner_transformations loop') = length pre_t ∧
       inner_transformations loop' !! 0%nat = pre_t !! 0%nat ∧
       (∀ j, (1 ≤ j < length (cor_correct (lum_c r1)))%nat →
             inner_transformations loop' !! j
               = corrected_at (cor_correct (lum_c r1)) r1 j) ∧
       (∀ j, (length (cor_correct (lum_c r1)) ≤ j)%nat →
             inner_transformations loop' !! j = r1 !! j)).
Proof.
  intros Hon Hlen Helch.
  destruct (loop_closure_correction_passes
              (reg_transformed_frames linear_icp)
              (reg_getTransformedKeypoints linear_icp) pre_t
              {| loops := loops s; trace := trace s ++ alignment_calls |}
              Helch)
    as (r1 & Hlen1 & Hzero1 & Hin1 & Hout1 & Hsecond).
  exists r1. split; [done |]. split; [done |]. split; [done |].
  split; [done |]. intros Hlum.
  destruct (Hsecond Hlum) as (r2 & Hrun & Hlen2 & Hzero2 & Hin2 & Hout2).
  eexists _, _. split.
  - unfold process_one_loop.
    erewrite bind_Ok by (by apply interior_alignment_run).
    rewrite Hon. erewrite bind_Ok by exact Hrun.
    cbv beta iota. erewrite bind_Ok by reflexivity. reflexivity.
  - simpl. split; [done |]. split; [congruence |]. by split.
Qed.

End loop_processor.

(** ** Further properties of loop preparation *)

Section more_prepare.

Variable cfg : Config.

Local Abbreviation L := (read_loop_size cfg).

(** X1. A loop size of zero (as the product [loop_size * read_step] taken on
    [uint]) over a non-empty range is rejected by the constructor of the
    first Loop: preparation throws [std::invalid_argument] with [loops]
    and the frame source untouched. *)
Theorem zero_read_loop_size_throws (fuel : nat) (s : state) :
  EDGE_BASED_RECONSTRUCTION_EDGE_BALANCING cfg = false →
  L = 0 →
  is_uint (read_from cfg) → is_uint (read_to cfg) →
  read_from cfg ≤ read_to cfg →
  (0 < fuel)%nat →
  prepare_all_loops cfg fuel s =
    (Throw (invalid_argument "Loop loop_size == 0"), s).
Proof.
  intros Hbal HL Hrf Hrt Hle Hfuel.
  unfold prepare_all_loops. erewrite bind_Throw; [done |].
  rewrite select_edges_fixed_eq by done.
  erewrite bind_Throw; [done |].
  destruct fuel as [|fuel]; [lia |]. simpl fixed_mode_loops.
  rewrite HL, Z.add_0_r, Z.sub_0_r.
  rewrite !(to_uint_small (read_from cfg)), (to_uint_small (read_to cfg))
    by done.
  destruct (Z.leb_spec (read_from cfg) (read_to cfg)); [| lia].
  rewrite Loop_Loop_eq, to_uint_diag. simpl.
  by erewrite bind_Throw by reflexivity.
Qed.

Lemma contiguous_nil : contiguous [].
Proof. intros i l l_next Hl. by rewrite lookup_nil in Hl. Qed.

Lemma contiguous_snoc (ls : list Loop) (l_new : Loop) :
  contiguous ls →
  (∀ l, last ls = Some l →
        (edge_frames_indexes l).2 = (edge_frames_indexes l_new).1) →
  contiguous (ls ++ [l_new]).
Proof.
  intros Hls Hlast i l l_next Hl Hnext.
  pose proof (lookup_lt_Some _ _ _ Hnext) as Hlt.
  rewrite length_app in Hlt. simpl in Hlt.
  rewrite lookup_app_l in Hl by lia.
  destruct (decide (S i = length ls)) as [Heq|Hne].
  - rewrite lookup_app_r, Heq, Nat.sub_diag in Hnext by lia.
    injection Hnext as <-. apply Hlast.
    rewrite last_lookup. rewrite <- Heq. simpl. done.
  - rewrite lookup_app_l in Hnext by lia. by eapply Hls.
Qed.

Lemma to_uint_sub_idemp a b : to_uint (to_uint a - b) = to_uint (a - b).
Proof. unfold to_uint. apply Zminus_mod_idemp_l. Qed.

Lemma fixed_mode_loops_contiguous (fuel : nat) : ∀ (i : Z) (s : state),
  is_uint i →
  contiguous (loops s) →
  (∀ l, last (loops s) = Some l →
        (edge_frames_indexes l).2 = to_uint (i - L)) →
  contiguous (loops (fixed_mode_loops cfg fuel i s).2).
Proof.
  induction fuel as [|fuel IH]; intros i s Hi Hs Hlast; simpl; [done |].
  destruct (i <=? to_uint (read_to cfg)); [| done].
  rewrite Loop_Loop_eq.
  destruct (to_uint (i - to_uint (i - L)) =? 0); [done |].
  erewrite bind_Ok by reflexivity.
  erewrite bind_Ok by apply push_back_run.
  apply IH; simpl.
  - apply to_uint_range.
  - apply contiguous_snoc; [done |]. intros l Hl. by apply Hlast.
  - intros l Hl. rewrite last_snoc in Hl. injection Hl as <-. simpl.
    rewrite to_uint_sub_idemp.
    replace (i + L - L) with i by lia. by rewrite to_uint_small.
Qed.

Lemma balanced_mode_loops_contiguous (edge_indices : list Z) :
  ∀ s : state,
  contiguous (loops s) →
  (∀ l prev, last (loops s) = Some l → head edge_indices = Some prev →
     (edge_frames_indexes l).2
       = to_uint (prev * read_step cfg + read_from cfg)) →
  contiguous (loops (balanced_mode_loops cfg edge_indices s).2).
Proof.
  induction edge_indices as [|prev rest IH]; intros s Hs Hlast; [done |].
  destruct rest as [|cur rest']; [done |].
  change (balanced_mode_loops cfg (prev :: cur :: rest'))
    with (l ← lift (Loop_Loop
                      (to_uint (prev * read_step cfg + read_from cfg))
                      (to_uint (cur * read_step cfg + read_from cfg)));
          push_back l;; balanced_mode_loops cfg (cur :: rest')).
  rewrite Loop_Loop_eq.
  destruct (_ =? 0); [done |].
  erewrite bind_Ok by reflexivity.
  erewrite bind_Ok by apply push_back_run.
  apply IH; simpl.
  - apply contiguous_snoc; [done |]. intros l Hl. by eapply Hlast.
  - intros l prev' Hl Hprev. rewrite last_snoc in Hl.
    injection Hl as <-. by injection Hprev as <-.
Qed.

(** X2. Whichever the mode and whatever the outcome, the loops edge selection
    leaves in [loops] (starting from none) are contiguous: each one ends
    at the frame index the next one starts at. *)
Theorem select_edges_contiguous (fuel : nat) (s : state) :
  loops s = [] →
  contiguous (loops (select_edges cfg fuel s).2).
Proof.
  intros Hls. unfold select_edges.
  destruct (negb (EDGE_BASED_RECONSTRUCTION_EDGE_BALANCING cfg)).
  - pose proof (fixed_mode_loops_contiguous fuel
                  (to_uint (read_from cfg + L)) s) as Hfixed.
    unfold mbind, M_bind.
    destruct (fixed_mode_loops cfg fuel (to_uint (read_from cfg + L)) s)
      as [[[] | e | |] s1]; simpl in *;
      try (apply Hfixed; [apply to_uint_range | rewrite Hls; apply contiguous_nil
                         | by rewrite Hls]).
    assert (contiguous (loops s1)) as Hs1.
    { apply Hfixed; [apply to_uint_range | rewrite Hls; apply contiguous_nil
                    | by rewrite Hls]. }
    unfold fixed_mode_edge_frames, get_loops, mbind, M_bind.
    destruct (loops s1) eqn:E; simpl; by rewrite E.
  - do 2 (erewrite bind_Ok by reflexivity).
    destruct (balanced_edge_frames _ _ 0 0 []) as [efs | e | |];
      try (simpl; rewrite Hls; apply contiguous_nil).
    erewrite bind_Ok by reflexivity.
    match goal with
    | |- context [(balanced_mode_loops cfg ?es ≫= _) ?s1] =>
      pose proof (balanced_mode_loops_contiguous es s1) as Hbal;
      unfold mbind, M_bind;
      destruct (balanced_mode_loops cfg es s1) as [[[] | e | |] s2]
    end; simpl in *;
      apply Hbal; try (rewrite Hls; apply contiguous_nil); by rewrite Hls.
Qed.

(** *** Balanced mode *)

Lemma frames_at_shift (f : Frame) (it : list Frame) (index : Z)
    (edge_indices : list Z) :
  Forall (λ e, index + 1 ≤ e) edge_indices →
  frames_at (f :: it) index edge_indices
    = frames_at it (index + 1) edge_indices.
Proof.
  induction 1 as [|e es He _ IH]; [done |].
  simpl. rewrite IH.
  replace (Z.to_nat (e - index)) with (S (Z.to_nat (e - (index + 1))))
    by lia.
  done.
Qed.

Lemma length_frames_at (it : list Frame) (index : Z) (edge_indices : list Z) :
  Forall (λ e, index ≤ e < index + Z.of_nat (length it)) edge_indices →
  length (frames_at it index edge_indices) = length edge_indices.
Proof.
  induction 1 as [|e es He _ IH]; [done |].
  simpl.
  destruct (lookup_lt_is_Some_2 it (Z.to_nat (e - index)) ltac:(lia))
    as [f ->].
  simpl. by rewrite IH.
Qed.

(** The pass of lines 71-76 from position [index], with the edges
    [past] behind and the edges [ahead] ahead: when [ahead] is increasing,
    within the frames left, and ends at the last frame, the pass picks
    the frame of every edge. *)
Lemma balanced_edge_frames_collects (it : list Frame) :
  ∀ (past ahead : list Z) (index : Z) (edge_frames : list Frame),
  StronglySorted Z.lt ahead →
  Forall (λ e, index ≤ e < index + Z.of_nat (length it)) ahead →
  (it ≠ [] → last ahead = Some (index + Z.of_nat (length it) - 1)) →
  0 ≤ index → index + Z.of_nat (length it) < uint_modulus →
  balanced_edge_frames it (past ++ ahead) index (length past) edge_frames
    = Ok (edge_frames ++ frames_at it index ahead).
Proof.
  induction it as [|f it IH];
    intros past ahead index acc Hsorted Hrange Hlast Hindex Hmax.
  - destruct ahead as [|e ahead].
    + simpl. by rewrite app_nil_r.
    + apply Forall_cons in Hrange as [He _]. simpl in He. lia.
  - destruct ahead as [|e ahead].
    { specialize (Hlast ltac:(done)). done. }
    simpl balanced_edge_frames.
    rewrite list_lookup_middle by done.
    apply StronglySorted_inv in Hsorted as [Hsorted Hlt].
    apply Forall_cons in Hrange as [He Hrange].
    simpl length in *.
    rewrite to_uint_small by (unfold is_uint; lia).
    destruct (Z.eqb_spec index e) as [<-|Hne].
    + replace (past ++ index :: ahead) with ((past ++ [index]) ++ ahead)
        by (by rewrite <- app_assoc).
      replace (S (length past)) with (length (past ++ [index]))
        by (rewrite length_app; simpl; lia).
      rewrite IH; try done; try lia.
      * rewrite <- app_assoc. f_equal. simpl.
        rewrite Z.sub_diag. simpl.
        rewrite frames_at_shift; [done |].
        eapply Forall_impl; [exact Hlt |]. simpl. lia.
      * rewrite Forall_forall in Hrange, Hlt. apply Forall_forall.
        intros e He'. specialize (Hrange e He'). specialize (Hlt e He').
        simpl in *. lia.
      * intros Hit. specialize (Hlast ltac:(done)).
        destruct ahead as [|e' ahead'].
        { simpl in Hlast. injection Hlast as Hlast.
          destruct it; [done | simpl in Hlast; lia]. }
        rewrite last_cons_cons in Hlast. rewrite Hlast. f_equal. lia.
    + assert (Forall (λ e', index + 1 ≤ e') (e :: ahead)) as Hahead.
      { constructor; [lia |].
        eapply Forall_impl; [exact Hlt |]. simpl. lia. }
      rewrite IH; try done; try lia.
      * by rewrite frames_at_shift.
      * by constructor.
      * rewrite Forall_forall in Hrange, Hahead. apply Forall_forall.
        intros e' He'. apply elem_of_cons in He' as [->|He'].
        -- specialize (Hahead e ltac:(left)). simpl in *. lia.
        -- specialize (Hrange e' He').
           specialize (Hahead e' ltac:(by right)). simpl in *. lia.
      * intros Hit. rewrite (Hlast ltac:(done)). f_equal. lia.
Qed.

(** The same pass when the last frame lies beyond the last edge:
    [edge_indices] is read past its end. *)
Lemma balanced_edge_frames_overrun (it : list Frame) :
  ∀ (past ahead : list Z) (index : Z) (edge_frames : list Frame),
  it ≠ [] →
  StronglySorted Z.lt ahead →
  Forall (λ e, index ≤ e < index + Z.of_nat (length it) - 1) ahead →
  0 ≤ index → index + Z.of_nat (length it) < uint_modulus →
  balanced_edge_frames it (past ++ ahead) index (length past) edge_frames
    = Undefined.
Proof.
  induction it as [|f it IH];
    intros past ahead index acc Hit Hsorted Hrange Hindex Hmax; [done |].
  simpl balanced_edge_frames. simpl length in *.
  destruct ahead as [|e ahead].
  { rewrite app_nil_r, lookup_ge_None_2 by lia. done. }
  rewrite list_lookup_middle by done.
  apply StronglySorted_inv in Hsorted as [Hsorted Hlt].
  apply Forall_cons in Hrange as [He Hrange].
  rewrite to_uint_small by (unfold is_uint; lia).
  assert (it ≠ []) as Hit' by (destruct it; [simpl in He; lia | done]).
  destruct (Z.eqb_spec index e) as [<-|Hne].
  - replace (past ++ index :: ahead) with ((past ++ [index]) ++ ahead)
      by (by rewrite <- app_assoc).
    replace (S (length past)) with (length (past ++ [index]))
      by (rewrite length_app; simpl; lia).
    apply IH; try done; try lia.
    rewrite Forall_forall in Hrange, Hlt. apply Forall_forall.
    intros e He'. specialize (Hrange e He'). specialize (Hlt e He').
    simpl in *. lia.
  - apply IH; try done; try lia; [by constructor |].
    rewrite Forall_forall in Hrange, Hlt. apply Forall_forall.
    intros e' He'. apply elem_of_cons in He' as [->|He'].
    + simpl in *. lia.
    + specialize (Hrange e' He'). specialize (Hlt e' He'). simpl in *. lia.
Qed.

Lemma balanced_mode_loops_run (edge_indices : list Z) : ∀ s : state,
  StronglySorted Z.lt edge_indices →
  Forall (λ e, 0 ≤ e ∧ e * read_step cfg + read_from cfg < uint_modulus)
         edge_indices →
  0 < read_step cfg → 0 ≤ read_from cfg →
  balanced_mode_loops cfg edge_indices s =
    (Ok (), {| loops := loops s ++ loops_between cfg edge_indices;
               trace := trace s |}).
Proof.
  induction edge_indices as [|prev rest IH];
    intros s Hsorted Hrange Hstep Hfrom.
  { simpl. unfold loops_between. simpl. by rewrite app_nil_r, state_eta. }
  destruct rest as [|cur rest'].
  { simpl. unfold loops_between. simpl. by rewrite app_nil_r, state_eta. }
  change (balanced_mode_loops cfg (prev :: cur :: rest'))
    with (l ← lift (Loop_Loop
                      (to_uint (prev * read_step cfg + read_from cfg))
                      (to_uint (cur * read_step cfg + read_from cfg)));
          push_back l;; balanced_mode_loops cfg (cur :: rest')).
  apply StronglySorted_inv in Hsorted as [Hsorted Hlt].
  apply Forall_cons in Hlt as [Hlt _].
  apply Forall_cons in Hrange as [[Hprev Hprev'] Hrange].
  pose proof Hrange as Hrange'.
  apply Forall_cons in Hrange' as [[Hcur Hcur'] _].
  assert (0 ≤ prev * read_step cfg) by lia.
  assert (prev * read_step cfg < cur * read_step cfg) by nia.
  rewrite !to_uint_small by (unfold is_uint; lia).
  rewrite Loop_Loop_lt by (unfold is_uint; lia).
  erewrite bind_Ok by reflexivity.
  erewrite bind_Ok by apply push_back_run.
  rewrite IH by done. simpl. by rewrite <- app_assoc.
Qed.

Lemma length_loops_between (edge_indices : list Z) :
  length (loops_between cfg edge_indices) = (length edge_indices - 1)%nat.
Proof.
  unfold loops_between. rewrite length_zip_with.
  destruct edge_indices; [done |]. simpl length. lia.
Qed.

(** X9. Lines 78-83 when two consecutive edge positions give the same frame
    index (a repeated position, or a stride of zero): the constructor
    throws, with the loops before the repetition already in [loops]. *)
Lemma balanced_mode_loops_repeated (a b : Z) (rest : list Z) :
  ∀ (before : list Z) (s : state),
  StronglySorted Z.lt (before ++ [a]) →
  Forall (λ e, 0 ≤ e ∧ e * read_step cfg + read_from cfg < uint_modulus)
         (before ++ [a]) →
  0 < read_step cfg → 0 ≤ read_from cfg →
  to_uint (a * read_step cfg + read_from cfg)
    = to_uint (b * read_step cfg + read_from cfg) →
  balanced_mode_loops cfg (before ++ a :: b :: rest) s =
    (Throw (invalid_argument "Loop loop_size == 0"),
     {| loops := loops s ++ loops_between cfg (before ++ [a]);
        trace := trace s |}).
Proof.
  intros before. induction before as [|p before IH];
    intros s Hsorted Hrange Hstep Hfrom Hsame.
  - change (balanced_mode_loops cfg ([] ++ a :: b :: rest))
      with (l ← lift (Loop_Loop
                        (to_uint (a * read_step cfg + read_from cfg))
                        (to_uint (b * read_step cfg + read_from cfg)));
            push_back l;; balanced_mode_loops cfg (b :: rest)).
    rewrite Loop_Loop_eq, Hsame, to_uint_diag. simpl.
    erewrite bind_Throw by reflexivity.
    unfold loops_between. simpl. by rewrite app_nil_r, state_eta.
  - assert (∃ q tl tl', before ++ a :: b :: rest = q :: tl ∧
                        before ++ [a] = q :: tl') as (q & tl & tl' & E & E').
    { destruct before as [|q before']; simpl; eauto. }
    simpl app in *. rewrite E' in Hsorted, Hrange.
    apply StronglySorted_inv in Hsorted as [Hsorted Hlt].
    apply Forall_cons in Hlt as [Hlt _].
    apply Forall_cons in Hrange as [[Hp Hp'] Hrange].
    pose proof Hrange as Hrange'.
    apply Forall_cons in Hrange' as [[Hq Hq'] _].
    assert (balanced_mode_loops cfg (p :: before ++ a :: b :: rest) s
      = (l ← lift (Loop_Loop
                     (to_uint (p * read_step cfg + read_from cfg))
                     (to_uint (q * read_step cfg + read_from cfg)));
         push_back l;;
         balanced_mode_loops cfg (before ++ a :: b :: rest)) s) as ->.
    { by rewrite E. }
    assert (0 ≤ p * read_step cfg) by lia.
    assert (p * read_step cfg < q * read_step cfg) by nia.
    rewrite (to_uint_small (p * read_step cfg + read_from cfg)),
            (to_uint_small (q * read_step cfg + read_from cfg))
      by (unfold is_uint; lia).
    rewrite Loop_Loop_lt by (unfold is_uint; lia).
    erewrite bind_Ok by reflexivity.
    erewrite bind_Ok by apply push_back_run.
    rewrite IH; try done; [| by rewrite E' | by rewrite E'].
    simpl. rewrite <- app_assoc. do 3 f_equal.
    rewrite E'. unfold loops_between. simpl. done.
Qed.

Lemma balanced_mode_loops_outcome (edge_indices : list Z) : ∀ s : state,
  trace (balanced_mode_loops cfg edge_indices s).2 = trace s ∧
  ((balanced_mode_loops cfg edge_indices s).1 = Ok () ∨
   ∃ e, (balanced_mode_loops cfg edge_indices s).1 = Throw e).
Proof.
  induction edge_indices as [|prev rest IH]; intros s.
  { split; [done | by left]. }
  destruct rest as [|cur rest'].
  { split; [done | by left]. }
  change (balanced_mode_loops cfg (prev :: cur :: rest'))
    with (l ← lift (Loop_Loop
                      (to_uint (prev * read_step cfg + read_from cfg))
                      (to_uint (cur * read_step cfg + read_from cfg)));
          push_back l;; balanced_mode_loops cfg (cur :: rest')).
  rewrite Loop_Loop_eq. destruct (_ =? 0).
  { split; [done | right; by eexists]. }
  erewrite bind_Ok by reflexivity.
  erewrite bind_Ok by apply push_back_run.
  destruct (IH {| loops := loops s ++
                    [fresh_Loop
                       (to_uint (prev * read_step cfg + read_from cfg))
                       (to_uint (cur * read_step cfg + read_from cfg))];
                  trace := trace s |}) as [Htr Hout].
  split; [exact Htr | exact Hout].
Qed.

Section balanced_mode.

Local Abbreviation it :=
  (Iter (read_from cfg) (read_to cfg) (read_step cfg)).
Local Abbreviation edge_indices := (balance it (loop_size cfg)).
Local Abbreviation balancing_calls :=
  [ev_Iter (read_from cfg) (read_to cfg) (read_step cfg); ev_balance].

Lemma select_edges_balanced_eq (fuel : nat) :
  EDGE_BASED_RECONSTRUCTION_EDGE_BALANCING cfg = true →
  select_edges cfg fuel =
    (call (ev_Iter (read_from cfg) (read_to cfg) (read_step cfg));;
     call ev_balance;;
     edge_frames ← lift (balanced_edge_frames it edge_indices 0 0 []);
     balanced_mode_loops cfg edge_indices;;
     mret edge_frames).
Proof. intros Hbal. unfold select_edges. by rewrite Hbal. Qed.

(** X6. Balanced mode, when the balancer returns increasing positions of the
    frame sequence that end at its last frame (and every edge fits in a
    [uint]): one frame is collected per position, one Loop is made per
    pair of consecutive positions, so that, from no loops and with one
    position at least, the check of the counts passes and preparation
    goes on to the alignment of these frames. *)
Theorem balanced_mode_one_frame_per_edge (fuel : nat) (s : state) :
  EDGE_BASED_RECONSTRUCTION_EDGE_BALANCING cfg = true →
  StronglySorted Z.lt edge_indices →
  Forall (λ e, 0 ≤ e < Z.of_nat (length it)) edge_indices →
  (it ≠ [] → last edge_indices = Some (Z.of_nat (length it) - 1)) →
  Z.of_nat (length it) < uint_modulus →
  0 < read_step cfg → 0 ≤ read_from cfg →
  Forall (λ e, e * read_step cfg + read_from cfg < uint_modulus)
         edge_indices →
  select_edges cfg fuel s =
    (Ok (frames_at it 0 edge_indices),
     {| loops := loops s ++ loops_between cfg edge_indices;
        trace := trace s ++ balancing_calls |}) ∧
  length (frames_at it 0 edge_indices) = length edge_indices ∧
  length (loops_between cfg edge_indices) = (length edge_indices - 1)%nat ∧
  (loops s = [] → edge_indices ≠ [] →
   prepare_all_loops cfg fuel s =
     align_edges (frames_at it 0 edge_indices)
       {| loops := loops_between cfg edge_indices;
          trace := trace s ++ balancing_calls |}).
Proof.
  intros Hbal Hsorted Hrange Hlast Hmax Hstep Hfrom Hfit.
  assert (select_edges cfg fuel s =
    (Ok (frames_at it 0 edge_indices),
     {| loops := loops s ++ loops_between cfg edge_indices;
        trace := trace s ++ balancing_calls |})) as Hsel.
  { rewrite select_edges_balanced_eq by done.
    do 2 (erewrite bind_Ok by reflexivity).
    pose proof (balanced_edge_frames_collects it [] edge_indices 0 [])
      as Hcollect.
    simpl in Hcollect. rewrite Hcollect; try done; try lia.
    erewrite bind_Ok by reflexivity.
    assert (Forall (λ e, 0 ≤ e ∧
                         e * read_step cfg + read_from cfg < uint_modulus)
                   edge_indices) as Hboth.
    { rewrite Forall_forall in Hrange, Hfit. apply Forall_forall.
      intros e He. specialize (Hrange e He). specialize (Hfit e He).
      simpl in *. lia. }
    erewrite bind_Ok by (by apply balanced_mode_loops_run).
    simpl. by rewrite <- app_assoc. }
  split; [done |]. split; [by apply length_frames_at |].
  split; [apply length_loops_between |].
  intros Hls Hne. unfold prepare_all_loops.
  erewrite bind_Ok by exact Hsel. rewrite Hls. simpl app.
  erewrite bind_Ok; [done |].
  unfold check_edge_count. erewrite bind_Ok by reflexivity. simpl.
  rewrite length_loops_between, length_frames_at by done.
  destruct (decide _) as [Hbad|]; [| done].
  destruct edge_indices; [done | simpl in Hbad; lia].
Qed.

(** X7. Balanced mode, when the last frame of the sequence lies beyond the
    last position the balancer returned (or it returned none): the pass
    that collects the edge frames reads [edge_indices] past its end. *)
Theorem balanced_mode_frames_after_last_edge (fuel : nat) (s : state) :
  EDGE_BASED_RECONSTRUCTION_EDGE_BALANCING cfg = true →
  it ≠ [] →
  StronglySorted Z.lt edge_indices →
  Forall (λ e, 0 ≤ e < Z.of_nat (length it) - 1) edge_indices →
  Z.of_nat (length it) < uint_modulus →
  (select_edges cfg fuel s).1 = Undefined ∧
  (prepare_all_loops cfg fuel s).1 = Undefined ∧
  loops (prepare_all_loops cfg fuel s).2 = loops s.
Proof.
  intros Hbal Hit Hsorted Hrange Hmax.
  assert (select_edges cfg fuel s =
    (Undefined, {| loops := loops s;
                   trace := trace s ++ balancing_calls |})) as Hsel.
  { rewrite select_edges_balanced_eq by done.
    do 2 (erewrite bind_Ok by reflexivity).
    pose proof (balanced_edge_frames_overrun it [] edge_indices 0 [])
      as Hover.
    simpl in Hover. rewrite Hover; try done; try lia.
    erewrite bind_Undefined by reflexivity. simpl.
    by rewrite <- app_assoc. }
  unfold prepare_all_loops.
  erewrite bind_Undefined by exact Hsel. by rewrite Hsel.
Qed.

(** X8. Balanced mode over an empty frame sequence: whatever the balancer
    returns, preparation throws (the constructor's exception or the
    check of the counts) and neither the filter nor an aligner is
    called. *)
Theorem balanced_mode_empty_source_throws (fuel : nat) (s : state) :
  EDGE_BASED_RECONSTRUCTION_EDGE_BALANCING cfg = true →
  it = [] →
  (∃ e, (prepare_all_loops cfg fuel s).1 = Throw e) ∧
  trace (prepare_all_loops cfg fuel s).2 = trace s ++ balancing_calls.
Proof.
  intros Hbal Hit. unfold prepare_all_loops.
  rewrite select_edges_balanced_eq by done.
  rewrite !bind_assoc. erewrite bind_Ok by reflexivity.
  rewrite !bind_assoc. erewrite bind_Ok by reflexivity.
  rewrite Hit. simpl balanced_edge_frames.
  rewrite !bind_assoc. erewrite bind_Ok by reflexivity.
  rewrite bind_assoc.
  match goal with
  | |- context [(balanced_mode_loops cfg ?es ≫= _) ?s1] =>
    destruct (balanced_mode_loops_outcome es s1) as [Htr Hout];
    destruct (balanced_mode_loops cfg es s1) as [o s2] eqn:Hrun
  end.
  simpl in Htr, Hout. rewrite <- app_assoc in Htr. simpl in Htr.
  destruct Hout as [-> | [e ->]].
  - erewrite bind_Ok by exact Hrun.
    erewrite bind_Ok by reflexivity.
    unfold check_edge_count. rewrite bind_assoc.
    erewrite bind_Ok by reflexivity.
    destruct (decide _) as [|Hgood]; [| simpl in Hgood; lia].
    erewrite bind_Throw by reflexivity. simpl. split; [by eexists | done].
  - erewrite bind_Throw by exact Hrun. simpl. split; [by eexists | done].
Qed.

End balanced_mode.

End more_prepare.

(** ** Further properties of the Global Edge Aligner *)

Section more_align_edges.

Variable edge_frame_list : list Frame.

Local Abbreviation filtered := (PcdFilters_filter edge_frame_list).
Local Abbreviation linear_sac := (sac filtered Identity).
Local Abbreviation linear_icp :=
  (icp (reg_transformed_frames linear_sac) Identity
       (reg_getTransformedKeypoints linear_sac)).
Local Abbreviation sac_t := (reg_align linear_sac).
Local Abbreviation icp_t := (reg_align linear_icp).
Local Abbreviation kp := (reg_getKeypoints linear_sac).

Lemma set_loop_edges_cases (frames : list Frame) (st it : list Matrix4f)
    (k : list KeypointsFrame) (i : nat) (s : state) :
  set_loop_edges frames st it k i s = (Undefined, s) ∨
  ∃ l', (i - 1 < length (loops s))%nat ∧
        set_loop_edges frames st it k i s =
          (Ok (), {| loops := <[(i - 1)%nat := l']> (loops s);
                     trace := trace s |}).
Proof.
  unfold set_loop_edges. erewrite bind_Ok by reflexivity.
  destruct (loops s !! (i - 1)%nat) as [l|] eqn:Hl;
    [| left; by erewrite bind_Undefined by (by apply at_index_None)].
  erewrite bind_Ok by (by apply at_index_Some).
  repeat match goal with
  | |- context [(at_index ?v ?j ≫= _) s] =>
    destruct (v !! j) eqn:?;
      [erewrite (bind_Ok (at_index v j)) by (by apply at_index_Some)
      | left; by erewrite bind_Undefined by (by apply at_index_None)]
  end.
  right. eexists. split; [by eapply lookup_lt_Some | done].
Qed.

(** The loop of lines 104-112 ends normally only if [loops] has an
    element for every iteration, and otherwise ends in an out-of-bounds
    access. *)
Lemma set_loop_edges_loop_outcome (frames : list Frame)
    (st it : list Matrix4f) (k : list KeypointsFrame) (m : nat) :
  ∀ (j : nat) (s : state),
  ((for_each (seq (S j) m) (set_loop_edges frames st it k) s).1 = Ok () ∧
   (j + m ≤ length (loops s) ∨ m = 0)%nat) ∨
  (for_each (seq (S j) m) (set_loop_edges frames st it k) s).1 = Undefined.
Proof.
  induction m as [|m IH]; intros j s; simpl.
  { left. split; [done | by right]. }
  destruct (set_loop_edges_cases frames st it k (S j) s)
    as [Hrun | (l' & Hlt & Hrun)].
  - right. by erewrite bind_Undefined by exact Hrun.
  - erewrite bind_Ok by exact Hrun.
    destruct (IH (S j) {| loops := <[(S j - 1)%nat := l']> (loops s);
                          trace := trace s |}) as [[HOk Hlen] | Hundef].
    + left. split; [done |]. left.
      simpl in Hlen. rewrite length_insert in Hlen. lia.
    + by right.
Qed.

Lemma align_edges_run (s : state) :
  (length icp_t - 1 ≤ length (loops s))%nat →
  (length icp_t ≤ length sac_t)%nat →
  (length icp_t ≤ length filtered)%nat →
  (length icp_t - 1 ≤ length kp)%nat →
  ∃ s',
    align_edges edge_frame_list s = (Ok (), s') ∧
    trace s' = trace s ++ [ev_filter; ev_sac_align; ev_icp_align] ∧
    length (loops s') = length (loops s) ∧
    (∀ j, (j < length icp_t - 1)%nat →
       ∃ l l', loops s !! j = Some l ∧
               with_edge_data filtered sac_t icp_t kp j l = Some l' ∧
               loops s' !! j = Some l') ∧
    (∀ j, (length icp_t - 1 ≤ j)%nat → loops s' !! j = loops s !! j).
Proof.
  intros Hloops Hsac Hfiltered Hkp.
  pose proof (align_edges_trace edge_frame_list s) as Htrace.
  unfold align_edges in *. do 3 (erewrite bind_Ok in * by reflexivity).
  match goal with
  | |- context [for_each _ _ ?s1] => set (s1' := s1) in *
  end.
  destruct (decide (length icp_t ≤ 1)%nat) as [Hshort|Hlong].
  - replace (length icp_t - 1)%nat with 0%nat in * by lia.
    exists s1'. simpl. rewrite <- !app_assoc. simpl.
    split; [done |]. split; [done |]. split; [done |].
    split; [lia | done].
  - destruct (set_loop_edges_range filtered sac_t icp_t kp
                (length icp_t - 1) 0 s1')
      as [s' [Hrun [Hlen [Hout Hin]]]]; simpl; try lia.
    rewrite Hrun in Htrace. simpl in Htrace.
    exists s'. split; [done |]. split; [done |]. split; [done |]. split.
    + intros j Hj.
      destruct (lookup_lt_is_Some_2 (loops s) j ltac:(lia)) as [l Hl].
      destruct (with_edge_data_is_Some filtered sac_t icp_t kp j l)
        as [l' Hl']; try lia.
      exists l, l'. split; [done |]. split; [done |].
      rewrite Hin by (simpl; lia). simpl. rewrite Hl. done.
    + intros j Hj. rewrite Hout by (simpl; lia). done.
Qed.

Lemma with_edge_data_fields (frames : list Frame) (st it : list Matrix4f)
    (k : list KeypointsFrame) (j : nat) (l l' : Loop) :
  with_edge_data frames st it k j l = Some l' →
  ∃ first_frame second_frame icp_first sac_first icp_second sac_second
    keypoints,
    frames !! j = Some first_frame ∧ frames !! S j = Some second_frame ∧
    it !! j = Some icp_first ∧ st !! j = Some sac_first ∧
    it !! S j = Some icp_second ∧ st !! S j = Some sac_second ∧
    k !! j = Some keypoints ∧
    l' = {| inner_transformations := inner_transformations l;
            inner_t_fitness_scores := inner_t_fitness_scores l;
            edge_frames_indexes := edge_frames_indexes l;
            edge_frames := (first_frame, second_frame);
            edge_keypoints := keypoints;
            edge_transformations :=
              (mmul icp_first sac_first, mmul icp_second sac_second) |}.
Proof.
  unfold with_edge_data. intros Hl'.
  destruct (frames !! j) as [f1|]; [| done].
  destruct (frames !! S j) as [f2|]; [| done].
  destruct (it !! j) as [a1|]; [| done].
  destruct (st !! j) as [b1|]; [| done].
  destruct (it !! S j) as [a2|]; [| done].
  destruct (st !! S j) as [b2|]; [| done].
  destruct (k !! j) as [kj|]; [| done].
  simpl in Hl'. injection Hl' as <-.
  by exists f1, f2, a1, b1, a2, b2, kj.
Qed.

(** X10. The aligner's output decides how many loops get their edge data:
    with n transformations returned (and the other vectors as long), the
    loops 0 .. n-2 get the frames j and j+1, the keypoints j and the
    transformations icp_t[j] * sac_t[j] and icp_t[j+1] * sac_t[j+1],
    keeping their indices and inner data; the loops from n-1 on are left
    as they were, with no error. *)
Theorem align_edges_assigns_first_loops (s : state) :
  (length icp_t - 1 ≤ length (loops s))%nat →
  (length icp_t ≤ length sac_t)%nat →
  (length icp_t ≤ length filtered)%nat →
  (length icp_t - 1 ≤ length kp)%nat →
  ∃ s',
    align_edges edge_frame_list s = (Ok (), s') ∧
    trace s' = trace s ++ [ev_filter; ev_sac_align; ev_icp_align] ∧
    length (loops s') = length (loops s) ∧
    (∀ j, (j < length icp_t - 1)%nat →
       ∃ l first_frame second_frame icp_first sac_first icp_second
         sac_second keypoints,
         loops s !! j = Some l ∧
         filtered !! j = Some first_frame ∧
         filtered !! S j = Some second_frame ∧
         icp_t !! j = Some icp_first ∧ sac_t !! j = Some sac_first ∧
         icp_t !! S j = Some icp_second ∧ sac_t !! S j = Some sac_second ∧
         kp !! j = Some keypoints ∧
         loops s' !! j =
           Some {| inner_transformations := inner_transformations l;
                   inner_t_fitness_scores := inner_t_fitness_scores l;
                   edge_frames_indexes := edge_frames_indexes l;
                   edge_frames := (first_frame, second_frame);
                   edge_keypoints := keypoints;
                   edge_transformations :=
                     (mmul icp_first sac_first,
                      mmul icp_second sac_second) |}) ∧
    (∀ j, (length icp_t - 1 ≤ j)%nat → loops s' !! j = loops s !! j).
Proof.
  intros Hloops Hsac Hfiltered Hkp.
  destruct (align_edges_run s Hloops Hsac Hfiltered Hkp)
    as (s' & Hrun & Htrace & Hlen & Hin & Hout).
  exists s'. split; [done |]. split; [done |]. split; [done |].
  split; [| done].
  intros j Hj. destruct (Hin j Hj) as (l & l' & Hl & Hl' & Hs').
  apply with_edge_data_fields in Hl'
    as (f1 & f2 & a1 & b1 & a2 & b2 & kj & ? & ? & ? & ? & ? & ? & ? & ->).
  by exists l, f1, f2, a1, b1, a2, b2, kj.
Qed.

(** X11. When the refinement aligner returns more transformations than there
    are loops plus one, the loop of lines 104-112 writes past the end of
    [loops]: undefined behaviour, whatever the other vectors hold. *)
Theorem align_edges_more_transformations_than_loops (s : state) :
  (length (loops s) + 1 < length icp_t)%nat →
  (align_edges edge_frame_list s).1 = Undefined.
Proof.
  intros Hmany. unfold align_edges.
  do 3 (erewrite bind_Ok by reflexivity).
  match goal with
  | |- context [for_each _ _ ?s1] => set (s1' := s1)
  end.
  destruct (set_loop_edges_loop_outcome filtered sac_t icp_t kp
              (length icp_t - 1) 0 s1') as [[_ Hlen] | Hundef]; [| done].
  simpl in Hlen. lia.
Qed.

End more_align_edges.

(** ** Further properties of the Loop Processor *)

Lemma stateless_ret {A} (a : A) : stateless (mret a).
Proof.
  exists (Ok a), []. intros s. by rewrite app_nil_r, state_eta.
Qed.

Lemma stateless_lift {A} (o : outcome A) : stateless (lift o).
Proof.
  exists o, []. intros s. unfold lift. by rewrite app_nil_r, state_eta.
Qed.

Lemma stateless_call (e : event) : stateless (call e).
Proof. by exists (Ok ()), [e]. Qed.

Lemma stateless_bind {A B} (m : M A) (k : A → M B) :
  stateless m → (∀ a, stateless (k a)) → stateless (m ≫= k).
Proof.
  intros (o & evs & Hm) Hk. destruct o as [a | e | |].
  - destruct (Hk a) as (o' & evs' & Hka).
    exists o', (evs ++ evs'). intros s.
    erewrite bind_Ok by apply Hm. rewrite Hka. simpl.
    by rewrite app_assoc.
  - exists (Throw e), evs. intros s. by erewrite bind_Throw by apply Hm.
  - exists Undefined, evs. intros s.
    by erewrite bind_Undefined by apply Hm.
  - exists OutOfFuel, evs. intros s.
    by erewrite bind_OutOfFuel by apply Hm.
Qed.

Lemma stateless_at_index {A} (v : list A) (i : nat) :
  stateless (at_index v i).
Proof.
  unfold at_index.
  destruct (v !! i); [apply stateless_ret | apply stateless_lift].
Qed.

Lemma stateless_fold_each {A} (idx : list nat) (body : nat → A → M A) :
  (∀ i a, stateless (body i a)) → ∀ a, stateless (fold_each idx body a).
Proof.
  intros Hbody. induction idx as [|i idx IH]; intros a; simpl.
  - apply stateless_ret.
  - apply stateless_bind; [apply Hbody | done].
Qed.

Lemma stateless_apply_correction (c result_t : list Matrix4f) :
  stateless (apply_correction c result_t).
Proof.
  apply stateless_fold_each. intros i r.
  apply stateless_bind; [apply stateless_at_index |]. intros c_i.
  apply stateless_bind; [apply stateless_at_index |]. intros r_i.
  apply stateless_ret.
Qed.

Lemma process_one_loop_stateless_aux (cfg : Config) (loop : Loop) :
  stateless (process_one_loop cfg loop).
Proof.
  unfold process_one_loop.
  apply stateless_bind.
  - unfold interior_alignment.
    do 4 (apply stateless_bind; [apply stateless_call |]; intros _).
    apply stateless_bind; [| intros result_t; apply stateless_ret].
    apply stateless_fold_each. intros i r.
    apply stateless_bind; [apply stateless_at_index |]. intros icp_i.
    apply stateless_bind; [apply stateless_at_index |]. intros sac_i.
    apply stateless_ret.
  - intros [[linear_sac linear_icp] result_t].
    apply stateless_bind.
    + destruct (EDGE_BASED_RECONSTRUCTION_ELCH_LUM cfg);
        [| apply stateless_ret].
      unfold loop_closure_correction.
      apply stateless_bind; [apply stateless_call |]; intros _.
      apply stateless_bind; [apply stateless_apply_correction |].
      intros r1.
      apply stateless_bind; [apply stateless_call |]; intros _.
      apply stateless_bind; [apply stateless_apply_correction |].
      intros r2. apply stateless_ret.
    + intros [keypoints r].
      apply stateless_bind; [apply stateless_call |]; intros _.
      apply stateless_ret.
Qed.

(** X12. [process_one_loop] neither reads nor writes the member [loops]:
    called on the same Loop in any two states, it returns the same
    outcome and makes the same calls, and it leaves [loops] as it is. *)
Theorem process_one_loop_stateless (cfg : Config) (loop : Loop)
    (s1 s2 : state) :
  (process_one_loop cfg loop s1).1 = (process_one_loop cfg loop s2).1 ∧
  loops (process_one_loop cfg loop s1).2 = loops s1 ∧
  ∃ evs,
    trace (process_one_loop cfg loop s1).2 = trace s1 ++ evs ∧
    trace (process_one_loop cfg loop s2).2 = trace s2 ++ evs.
Proof.
  destruct (process_one_loop_stateless_aux cfg loop) as (o & evs & Hrun).
  rewrite (Hrun s1), (Hrun s2). simpl.
  split; [done |]. split; [done |]. by exists evs.
Qed.

Lemma process_one_loop_run (cfg : Config) (loop : Loop) (s : state) :
  process_one_loop cfg loop s =
    (processed cfg loop,
     {| loops := loops s; trace := trace s ++ calls_of cfg loop |}).
Proof.
  destruct (process_one_loop_stateless_aux cfg loop) as (o & evs & Hrun).
  unfold processed, calls_of. by rewrite !Hrun.
Qed.

Section more_process.

Variable cfg : Config.

Local Abbreviation process_body :=
  (λ i : nat,
     ls ← get_loops;
     l ← at_index ls i;
     l' ← process_one_loop cfg l;
     ls ← get_loops;
     set_loops (<[i := l']> ls)).

Lemma process_body_Ok (before rest : list Loop) (l l' : Loop) (s : state) :
  loops s = before ++ l :: rest →
  processed cfg l = Ok l' →
  process_body (length before) s =
    (Ok (), {| loops := before ++ l' :: rest;
               trace := trace s ++ calls_of cfg l |}).
Proof.
  intros Hls Hl. cbv beta.
  erewrite bind_Ok by reflexivity.
  erewrite bind_Ok
    by (apply at_index_Some; rewrite Hls; by apply list_lookup_middle).
  erewrite bind_Ok by (rewrite process_one_loop_run, Hl; reflexivity).
  erewrite bind_Ok by reflexivity.
  unfold set_loops. simpl. rewrite Hls.
  by rewrite insert_app_r_alt, Nat.sub_diag by lia.
Qed.

Lemma process_body_Undefined (before rest : list Loop) (l : Loop)
    (s : state) :
  loops s = before ++ l :: rest →
  processed cfg l = Undefined →
  process_body (length before) s =
    (Undefined, {| loops := loops s; trace := trace s ++ calls_of cfg l |}).
Proof.
  intros Hls Hl. cbv beta.
  erewrite bind_Ok by reflexivity.
  erewrite bind_Ok
    by (apply at_index_Some; rewrite Hls; by apply list_lookup_middle).
  erewrite bind_Undefined
    by (rewrite process_one_loop_run, Hl; reflexivity).
  done.
Qed.

Lemma process_loops_Ok (todo : list Loop) :
  ∀ (before todo' : list Loop) (s : state),
  loops s = before ++ todo →
  Forall2 (λ l l', processed cfg l = Ok l') todo todo' →
  for_each (seq (length before) (length todo)) process_body s =
    (Ok (), {| loops := before ++ todo';
               trace := trace s ++ concat (calls_of cfg <$> todo) |}).
Proof.
  induction todo as [|l todo IH]; intros before todo' s Hls Hall.
  - apply Forall2_nil_inv_l in Hall as ->. simpl.
    rewrite app_nil_r in Hls. by rewrite !app_nil_r, <- Hls, state_eta.
  - apply Forall2_cons_inv_l in Hall as (l' & todo'' & Hl & Hall & ->).
    simpl for_each.
    erewrite bind_Ok by (by eapply process_body_Ok).
    replace (S (length before)) with (length (before ++ [l']))
      by (rewrite length_app; simpl; lia).
    erewrite IH; [| simpl; by rewrite <- app_assoc | done].
    simpl. by rewrite <- !app_assoc.
Qed.

Lemma process_loops_Undefined (good : list Loop) :
  ∀ (before good' rest : list Loop) (l : Loop) (s : state),
  loops s = before ++ good ++ l :: rest →
  Forall2 (λ l l', processed cfg l = Ok l') good good' →
  processed cfg l = Undefined →
  for_each (seq (length before) (length (good ++ l :: rest)))
           process_body s =
    (Undefined,
     {| loops := before ++ good' ++ l :: rest;
        trace := trace s ++ concat (calls_of cfg <$> good)
                         ++ calls_of cfg l |}).
Proof.
  induction good as [|g good IH]; intros before good' rest l s Hls Hall Hl.
  - apply Forall2_nil_inv_l in Hall as ->. simpl.
    erewrite bind_Undefined by (by eapply process_body_Undefined).
    by rewrite Hls.
  - apply Forall2_cons_inv_l in Hall as (g' & good'' & Hg & Hall & ->).
    simpl for_each. simpl in Hls.
    erewrite bind_Ok by (by eapply process_body_Ok).
    replace (S (length before)) with (length (before ++ [g']))
      by (rewrite length_app; simpl; lia).
    erewrite IH; [| simpl; by rewrite <- app_assoc | done | done].
    simpl. by rewrite <- !app_assoc.
Qed.

(** X15. When [process_one_loop] returns a Loop for every loop, every element
    of [loops] is replaced by it, in order, each call sequence following
    the previous one, and the loops visualization is called last. *)
Theorem process_all_loops_replaces_every_loop (s : state)
    (finished : list Loop) :
  Forall2 (λ l l', processed cfg l = Ok l') (loops s) finished →
  process_all_loops cfg s =
    (Ok (), {| loops := finished;
               trace := trace s ++ concat (calls_of cfg <$> loops s)
                                ++ [ev_loops_data_vizualization] |}).
Proof.
  intros Hall. unfold process_all_loops.
  erewrite bind_Ok by reflexivity.
  erewrite bind_Ok by (by apply (process_loops_Ok (loops s) [] finished)).
  unfold call. simpl. by rewrite <- app_assoc.
Qed.

(** X16. When the processing of a loop ends in undefined behaviour (a vector
    read out of bounds), the loops before it have already been replaced
    in [loops], it and the loops after it are as they were, and the
    loops visualization is not called. *)
Theorem process_all_loops_stops_at_first_failure (s : state)
    (good good' rest : list Loop) (l : Loop) :
  loops s = good ++ l :: rest →
  Forall2 (λ l l', processed cfg l = Ok l') good good' →
  processed cfg l = Undefined →
  process_all_loops cfg s =
    (Undefined,
     {| loops := good' ++ l :: rest;
        trace := trace s ++ concat (calls_of cfg <$> good)
                         ++ calls_of cfg l |}).
Proof.
  intros Hls Hall Hl. unfold process_all_loops.
  erewrite bind_Ok by reflexivity. rewrite Hls.
  erewrite bind_Undefined; [done |].
  by apply (process_loops_Undefined good [] good' rest l s).
Qed.

(** Lines 126-130 from [loops[length before]] on. *)
Lemma copy_inner_transformations_from (todo : list Loop) :
  ∀ (before : list Loop) (result_t : list Matrix4f) (s : state),
  loops s = before ++ todo →
  fold_each (seq (length before) (length todo))
    (λ i result_t,
       ls ← get_loops;
       l ← at_index ls i;
       mret (result_t ++ inner_transformations l))
    result_t s =
  (Ok (result_t ++ concat (inner_transformations <$> todo)), s).
Proof.
  induction todo as [|l todo IH]; intros before result_t s Hls; simpl.
  - by rewrite app_nil_r.
  - rewrite bind_assoc. erewrite bind_Ok by reflexivity.
    rewrite bind_assoc. erewrite bind_Ok
      by (apply at_index_Some; rewrite Hls; by apply list_lookup_middle).
    erewrite bind_Ok by reflexivity.
    replace (S (length before)) with (length (before ++ [l]))
      by (rewrite length_app; simpl; lia).
    rewrite IH by (by rewrite <- app_assoc).
    by rewrite <- app_assoc.
Qed.

(** X17. [perform_tsdf_meshing] never fails and leaves [loops] alone, whatever
    the loops hold. The transformations it hands to the visualizer (when
    the camera poses are drawn) are the [inner_transformations] of all
    the loops in loop order: those of loop j start where those of the
    loops before it end. *)
Theorem perform_tsdf_meshing_hands_over_all_loops (v : Visualization)
    (s : state) :
  perform_tsdf_meshing v s =
    (Ok ([call_prepareVolume; call_redraw]
         ++ (if DRAW_ALL_CAMERA_POSES v
             then [call_visualizeCameraPoses
                     (concat (inner_transformations <$> loops s))]
             else [])
         ++ (if CPU_TSDF_DRAW_MESH v
             then [call_calculateMesh; call_getPoligonMesh;
                   call_visualizeMesh]
             else [])),
     s) ∧
  ∀ j l i,
    loops s !! j = Some l →
    (i < length (inner_transformations l))%nat →
    concat (inner_transformations <$> loops s)
      !! (length (concat (inner_transformations <$> take j (loops s))) + i)%nat
    = inner_transformations l !! i.
Proof.
  split.
  - unfold perform_tsdf_meshing, copy_inner_transformations.
    rewrite bind_assoc. erewrite bind_Ok by reflexivity.
    erewrite bind_Ok
      by (by apply (copy_inner_transformations_from (loops s) [] [])).
    done.
  - intros j l i Hl Hi.
    replace (concat (inner_transformations <$> loops s))
      with (concat (inner_transformations <$>
                      (take j (loops s) ++ l :: drop (S j) (loops s))))
      by (by rewrite take_drop_middle).
    rewrite fmap_app, concat_app. simpl.
    rewrite lookup_app_r by lia.
    replace (_ + i - _)%nat with i by lia.
    by rewrite lookup_app_l by done.
Qed.

End more_process.

Section more_loop_processor.

Variables (cfg : Config) (loop : Loop).

Local Abbreviation inner_frames :=
  (PcdFilters_filter
     (Iter (edge_frames_indexes loop).1 (edge_frames_indexes loop).2
           (read_step cfg))).
Local Abbreviation linear_sac :=
  (sac inner_frames (edge_transformations loop).1).
Local Abbreviation linear_icp :=
  (icp (reg_transformed_frames linear_sac) Identity
       (reg_getTransformedKeypoints linear_sac)).
Local Abbreviation sac_t := (reg_align linear_sac).
Local Abbreviation icp_t := (reg_align linear_icp).
Local Abbreviation alignment_calls :=
  [ev_Iter (edge_frames_indexes loop).1 (edge_frames_indexes loop).2
           (read_step cfg);
   ev_filter; ev_sac_align; ev_icp_align].
Local Abbreviation pre_t := (zip_with mmul icp_t sac_t).
Local Abbreviation elch_c :=
  (elch (reg_transformed_frames linear_icp)
        (reg_getTransformedKeypoints linear_icp) pre_t (edge_keypoints loop)).

Lemma compose_transformations_overrun (st it : list Matrix4f) (s : state) :
  (length st < length it)%nat →
  compose_transformations st it s = (Undefined, s).
Proof.
  intros Hshort. unfold compose_transformations.
  replace (length it) with (length st + S (length it - length st - 1))%nat
    by lia.
  rewrite seq_app, fold_each_app.
  pose proof (compose_transformations_range st it s (length st) 0
                ltac:(lia) ltac:(lia)) as Hrun.
  simpl in Hrun. erewrite bind_Ok by exact Hrun.
  simpl fold_each.
  destruct (lookup_lt_is_Some_2 it (length st) ltac:(lia)) as [a Ha].
  rewrite !bind_assoc. erewrite bind_Ok by (by apply at_index_Some).
  rewrite bind_assoc. erewrite bind_Undefined; [done |].
  apply at_index_None. by apply lookup_ge_None.
Qed.

(** X13. When the refinement aligner returns more transformations than the
    coarse one, the composition of lines 171-173 reads [sac_t] past its
    end: processing the loop is undefined behaviour, after the frames
    were read and both aligners called, and no corrector is called. *)
Theorem process_one_loop_coarse_too_short (s : state) :
  (length sac_t < length icp_t)%nat →
  process_one_loop cfg loop s =
    (Undefined,
     {| loops := loops s; trace := trace s ++ alignment_calls |}) ∧
  processed cfg loop = Undefined.
Proof.
  intros Hshort.
  assert (∀ s, process_one_loop cfg loop s =
    (Undefined,
     {| loops := loops s; trace := trace s ++ alignment_calls |})) as Hrun.
  { intros s'. unfold process_one_loop.
    erewrite bind_Undefined; [done |].
    unfold interior_alignment.
    do 4 (erewrite bind_Ok by reflexivity).
    erewrite bind_Undefined
      by (by apply compose_transformations_overrun).
    simpl. by rewrite <- !app_assoc. }
  split; [apply Hrun |]. unfold processed. by rewrite Hrun.
Qed.

(** X18. With loop-closure correction enabled, a first correction longer
    than the loop's transformations and of two transformations at least
    makes the loop of lines 179-181 read [result_t] past its end:
    processing the loop is undefined behaviour, after the aligners and
    the first corrector were called and before the second corrector
    is. *)
Theorem process_one_loop_first_correction_too_long (s : state) :
  EDGE_BASED_RECONSTRUCTION_ELCH_LUM cfg = true →
  (length icp_t ≤ length sac_t)%nat →
  (length pre_t < length (cor_correct elch_c))%nat →
  (2 ≤ length (cor_correct elch_c))%nat →
  process_one_loop cfg loop s =
    (Undefined,
     {| loops := loops s;
        trace := trace s ++ alignment_calls ++ [ev_elch_correct] |}) ∧
  processed cfg loop = Undefined.
Proof.
  intros Hon Hlen Hlong Htwo.
  assert (∀ s, process_one_loop cfg loop s =
    (Undefined,
     {| loops := loops s;
        trace := trace s ++ alignment_calls ++ [ev_elch_correct] |}))
    as Hrun.
  { intros s'. unfold process_one_loop.
    erewrite bind_Ok by (by apply interior_alignment_run).
    rewrite Hon.
    erewrite bind_Undefined
      by (by apply loop_closure_correction_overrun).
    simpl. by rewrite <- !app_assoc. }
  split; [apply Hrun |]. unfold processed. by rewrite Hrun.
Qed.

(** X14. With loop-closure correction enabled (and corrections no longer than
    what they correct), the finished Loop has as many transformations as
    the refinement aligner returned, the fitness scores of the
    refinement aligner (the corrections do not touch them) and the
    boundary data of the Loop it was made from; the first corrector is
    called before the second, after both aligners. *)
Theorem process_one_loop_keeps_boundary_and_scores (s : state) :
  EDGE_BASED_RECONSTRUCTION_ELCH_LUM cfg = true →
  (length icp_t ≤ length sac_t)%nat →
  (length (cor_correct elch_c) ≤ length pre_t)%nat →
  (∀ fs k ts ek, (length (cor_correct (lum fs k ts ek)) ≤ length ts)%nat) →
  ∃ loop',
    process_one_loop cfg loop s =
      (Ok loop',
       {| loops := loops s;
          trace := trace s ++ alignment_calls ++
                   [ev_elch_correct; ev_lum_correct; ev_vizualization] |}) ∧
    length (inner_transformations loop') = length icp_t ∧
    inner_t_fitness_scores loop' = reg_getFitnessScores linear_icp ∧
    edge_frames_indexes loop' = edge_frames_indexes loop ∧
    edge_frames loop' = edge_frames loop ∧
    edge_keypoints loop' = edge_keypoints loop ∧
    edge_transformations loop' = edge_transformations loop.
Proof.
  intros Hon Hlen Helch Hlum.
  destruct (process_one_loop_corrected cfg loop s Hon Hlen Helch Hlum)
    as (r1 & r2 & Hrun & _ & Hl2 & _).
  eexists. split; [exact Hrun |]. simpl.
  split; [| done]. rewrite Hl2, length_zip_with. lia.
Qed.

End more_loop_processor.

(** ** Loop preparation from end to end *)

Section prepare_fixed_mode.

Variable cfg : Config.

Local Abbreviation L := (read_loop_size cfg).
Local Abbreviation last_edge :=
  (read_from cfg + Z.of_nat (whole_loops cfg) * L).
Local Abbreviation edge_frame_list := (Iter (read_from cfg) last_edge L).
Local Abbreviation filtered := (PcdFilters_filter edge_frame_list).
Local Abbreviation linear_sac := (sac filtered Identity).
Local Abbreviation linear_icp :=
  (icp (reg_transformed_frames linear_sac) Identity
       (reg_getTransformedKeypoints linear_sac)).
Local Abbreviation sac_t := (reg_align linear_sac).
Local Abbreviation icp_t := (reg_align linear_icp).
Local Abbreviation kp := (reg_getKeypoints linear_sac).



Lemma to_uint_sub_idemp_r a b : to_uint (a - to_uint b) = to_uint (a - b).
Proof. unfold to_uint. apply Zminus_mod_idemp_r. Qed.

Lemma fixed_mode_loops_lengths (fuel : nat) : ∀ (i : Z) (s : state),
  Forall (λ l, to_uint ((edge_frames_indexes l).2
                        - (edge_frames_indexes l).1) = L) (loops s) →
  Forall (λ l, to_uint ((edge_frames_indexes l).2
                        - (edge_frames_indexes l).1) = L)
         (loops (fixed_mode_loops cfg fuel i s).2).
Proof.
  induction fuel as [|fuel IH]; intros i s Hs; simpl; [done |].
  destruct (i <=? to_uint (read_to cfg)); [| done].
  rewrite Loop_Loop_eq.
  destruct (to_uint (i - to_uint (i - L)) =? 0); [done |].
  erewrite bind_Ok by reflexivity.
  erewrite bind_Ok by apply push_back_run.
  apply IH. simpl. apply Forall_app. split; [done |].
  constructor; [| done]. simpl.
  rewrite to_uint_sub_idemp_r.
  replace (i - (i - L)) with L by lia.
  apply to_uint_small, to_uint_range.
Qed.

(** X3. Fixed mode never makes a loop of another length than L: whatever the
    range, the fuel and the outcome (the candidate edge wrapping around
    included), every loop left in [loops] (starting from none) has
    end - start = L on [uint]. *)
Theorem fixed_mode_every_loop_has_length_L (fuel : nat) (s : state) :
  EDGE_BASED_RECONSTRUCTION_EDGE_BALANCING cfg = false →
  loops s = [] →
  Forall (λ l, to_uint ((edge_frames_indexes l).2
                        - (edge_frames_indexes l).1) = L)
         (loops (select_edges cfg fuel s).2).
Proof.
  intros Hbal Hls. rewrite select_edges_fixed_eq by done.
  pose proof (fixed_mode_loops_lengths fuel
                (to_uint (read_from cfg + L)) s) as Hlen.
  rewrite Hls in Hlen. specialize (Hlen ltac:(constructor)).
  destruct (fixed_mode_loops cfg fuel (to_uint (read_from cfg + L)) s)
    as [o s1] eqn:Hrun.
  cbn [snd] in Hlen.
  destruct o as [[] | e | |].
  - erewrite bind_Ok by exact Hrun.
    destruct (loops s1) as [|l0 ls] eqn:E.
    + rewrite fixed_mode_edge_frames_nil by done. cbn [snd]. by rewrite E.
    + erewrite fixed_mode_edge_frames_cons by exact E. cbn [snd loops].
      by rewrite E.
  - by erewrite bind_Throw by exact Hrun.
  - by erewrite bind_Undefined by exact Hrun.
  - by erewrite bind_OutOfFuel by exact Hrun.
Qed.

End prepare_fixed_mode.

End Properties.

(** * The properties on the synthetic instance *)

Import Synthetic.

#[local] Existing Instance Z_types.

Ltac evaluate :=
  vm_compute; repeat split; (reflexivity || discriminate || lia).

Example fixed_mode_0_100 :
  edge_frames_indexes <$>
    loops (fixed_mode_loops (collab := full_correction)
             (config 100 true) 11 10 s0).2
  = [(0, 10); (10, 20); (20, 30); (30, 40); (40, 50); (50, 60); (60, 70);
     (70, 80); (80, 90); (90, 100)].
Proof. reflexivity. Qed.

Example fixed_mode_0_95 :
  edge_frames_indexes <$>
    loops (fixed_mode_loops (collab := full_correction)
             (config 95 true) 11 10 s0).2
  = [(0, 10); (10, 20); (20, 30); (30, 40); (40, 50); (50, 60); (60, 70);
     (70, 80); (80, 90)].
Proof. reflexivity. Qed.

Example fixed_mode_edges_0_100 :
  (select_edges (collab := full_correction) (config 100 true) 11 s0).1
  = Ok [0; 10; 20; 30; 40; 50; 60; 70; 80; 90; 100].
Proof. reflexivity. Qed.

Example fixed_mode_edges_0_95 :
  (select_edges (collab := full_correction) (config 95 true) 11 s0).1
  = Ok [0; 10; 20; 30; 40; 50; 60; 70; 80; 90].
Proof. reflexivity. Qed.

(** Balanced mode on the frames 3 .. 7 with the edges at the positions
    0, 2 and 4. *)
Example balanced_mode_3_7 :
  (λ r, (r.1, edge_frames_indexes <$> loops r.2))
    (select_edges (collab := full_correction) (balanced_config 7) 0 s0)
  = (Ok [3; 5; 7], [(3, 5); (5, 7)]).
Proof. reflexivity. Qed.

(** When a frame follows the last edge, [edge_indices] is read past its
    end. *)
Example balanced_mode_3_8 :
  (select_edges (collab := full_correction) (balanced_config 8) 0 s0).1
  = Undefined.
Proof. reflexivity. Qed.

(** C1 as stated fails on ranges it does not exclude.
    - With loop_size = 700000000 and read_step = 3, L = 2100000000. Over
      the range 2200000000 .. 2200000050 the first candidate edge,
      read_from + L = 4300000000, is beyond read_to: the claim has no
      loop. On [uint] it is 5032704 <= read_to, and the code creates the
      loops (2200000000, 5032704) and (5032704, 2105032704), whose edges
      are not read_from + k L.
    - With loop_size = 0, L = 0 and the candidate edge read_from + L = 0
      is <= read_to = 100, but the first Loop throws and no edge is
      produced. *)
Lemma fixed_mode_candidate_edge_wraps_around :
  read_to wrapping_config
    < read_from wrapping_config
      + loop_size wrapping_config * read_step wrapping_config ∧
  select_edges (collab := full_correction) wrapping_config 3 s0
  = (Ok [],
     {| loops := [fresh_Loop (collab := full_correction)
                    2200000000 5032704;
                  fresh_Loop (collab := full_correction)
                    5032704 2105032704];
        trace := [ev_Iter 2200000000 2105032704 2100000000] |}) ∧
  read_from zero_size_config
    + loop_size zero_size_config * read_step zero_size_config
    ≤ read_to zero_size_config ∧
  select_edges (collab := full_correction) zero_size_config 1 s0
  = (Throw (invalid_argument "Loop loop_size == 0"), s0).
Proof. repeat split; (reflexivity || discriminate). Qed.

(** The two ranges of the spec, with stride 1, and the range 5 .. 100
    with stride 3, whose loops have 30 frame indices. *)
Lemma fixed_mode_whole_loops_only_witness :
  fixed_mode_loops (collab := full_correction) (config 100 true) 11
    (to_uint (0 + to_uint (10 * 1))) s0
  = (Ok (), {| loops := loops_of_ten 10; trace := [] |}) ∧
  fixed_mode_loops (collab := full_correction) (config 95 true) 11
    (to_uint (0 + to_uint (10 * 1))) s0
  = (Ok (), {| loops := loops_of_ten 9; trace := [] |}) ∧
  0 + 9 * 10 ≤ 95 < 0 + (9 + 1) * 10 ∧
  select_edges (collab := full_correction) (config 95 true) 11 s0
  = (Ok [0; 10; 20; 30; 40; 50; 60; 70; 80; 90],
     {| loops := loops_of_ten 9; trace := [ev_Iter 0 90 10] |}) ∧
  select_edges (collab := full_correction) (strided_config 100) 4 s0
  = (Ok [5; 35; 65; 95],
     {| loops := loops_of_thirty 3; trace := [ev_Iter 5 95 30] |}).
Proof.
  destruct (fixed_mode_whole_loops_only (collab := full_correction)
              (config 100 true) 11 s0) as (Hloops & _); [evaluate .. |].
  destruct (fixed_mode_whole_loops_only (collab := full_correction)
              (config 95 true) 11 s0)
    as (Hloops' & Hnext & Hlast & Hedges); [evaluate .. |].
  destruct (fixed_mode_whole_loops_only (collab := full_correction)
              (strided_config 100) 4 s0)
    as (_ & _ & _ & Hstrided); [evaluate .. |].
  split; [exact Hloops |]. split; [exact Hloops' |].
  split; [split; [apply Hlast; evaluate | exact Hnext] |].
  split; [apply Hedges; evaluate | apply Hstrided; evaluate].
Defined.

Lemma Loop_zero_length_throws_witness :
  Loop_Loop (collab := full_correction) 4 4
    = Throw (invalid_argument "Loop loop_size == 0") ∧
  Loop_Loop (collab := full_correction) 4 9
    = Ok {| inner_transformations := [];
            inner_t_fitness_scores := [];
            edge_frames_indexes := (4, 9);
            edge_frames := (0, 0);
            edge_keypoints := 0;
            edge_transformations := (I4, I4) |}.
Proof.
  split.
  - apply (Loop_zero_length_throws (collab := full_correction) 4 4);
      evaluate.
  - apply (Loop_zero_length_throws (collab := full_correction) 4 9);
      evaluate.
Defined.

Lemma Loop_inverted_constructs_witness :
  to_uint (3 - 5) = 4294967294 ∧
  Loop_Loop (collab := full_correction) 5 3
    = Ok {| inner_transformations := [];
            inner_t_fitness_scores := [];
            edge_frames_indexes := (5, 3);
            edge_frames := (0, 0);
            edge_keypoints := 0;
            edge_transformations := (I4, I4) |}.
Proof.
  destruct (Loop_inverted_constructs (collab := full_correction) 5 3)
    as (Hdiff & _ & Hloop); [evaluate .. |].
  split; [exact Hdiff | exact Hloop].
Defined.

(** C2 as stated fails: over the range 0 .. 20 there are two loops and
    three edge frames, so the count check of line 86 passes; the filter
    of line 92 then drops a frame, the aligners return two
    transformations, the loop of lines 104-112 assigns loop 0 only, and
    loop preparation returns normally with the second boundary
    transformation of loop 0 composed from the aligners and the first one
    of loop 1 still the identity. *)
Lemma dropped_edge_frame_breaks_seam :
  prepare_all_loops (collab := dropping_filter) (config 20 false) 3 s0
  = (Ok (),
     {| loops :=
          [{| inner_transformations := [];
              inner_t_fitness_scores := [];
              edge_frames_indexes := (0, 10);
              edge_frames := (10, 20);
              edge_keypoints := 10;
              edge_transformations :=
                (mat_mul quarter_turn (mat_mul I4 (translation 10)),
                 mat_mul quarter_turn (mat_mul I4 (translation 20))) |};
           {| inner_transformations := [];
              inner_t_fitness_scores := [];
              edge_frames_indexes := (10, 20);
              edge_frames := (0, 0);
              edge_keypoints := 0;
              edge_transformations := (I4, I4) |}];
        trace := [ev_Iter 0 20 10; ev_filter; ev_sac_align; ev_icp_align] |}) ∧
  mat_mul quarter_turn (mat_mul I4 (translation 20)) ≠ I4.
Proof. split; [reflexivity | discriminate]. Qed.

Lemma adjacent_loops_share_edge_transformation_witness :
  ∃ s',
    align_edges (collab := full_correction) [0; 10; 20] two_loops
      = (Ok (), s') ∧
    ∀ i l l_next,
      loops s' !! i = Some l → loops s' !! S i = Some l_next →
      (edge_transformations l).2 = (edge_transformations l_next).1.
Proof.
  destruct (adjacent_loops_share_edge_transformation
              (collab := full_correction) [0; 10; 20] two_loops)
    as (s' & Hrun & _ & Hshared); [evaluate .. |].
  exists s'. split; [exact Hrun |].
  intros i l l_next Hl Hnext.
  destruct (Hshared i l l_next Hl Hnext) as (? & ? & _ & _ & -> & ->).
  reflexivity.
Defined.

Lemma interior_alignment_composes_refine_coarse_witness :
  interior_alignment (collab := full_correction) (config 100 true)
    loop_10_13 s0
  = (Ok (coarse [10; 11; 12; 13] (translation 5),
         refine [10; 11; 12; 13] I4 [10; 11; 12; 13],
         result_10_13),
     {| loops := [];
        trace := [ev_Iter 10 13 1; ev_filter; ev_sac_align; ev_icp_align] |}) ∧
  result_10_13 !! 1%nat
    = Some (mat_mul quarter_turn (mat_mul (translation 5) (translation 11))) ∧
  result_10_13 !! 1%nat
    ≠ Some (mat_mul (mat_mul (translation 5) (translation 11)) quarter_turn).
Proof.
  split; [| split].
  - apply (interior_alignment_composes_refine_coarse
             (collab := full_correction) (config 100 true) loop_10_13 s0);
      evaluate.
  - reflexivity.
  - discriminate.
Defined.

Lemma corrector_length (x : Z) (n : nat) (fs k : list Z) (ts : list Matrix)
    (ek : Z) :
  (length (cor_correct (corrector x n fs k ts ek)) ≤ length ts)%nat.
Proof. simpl. rewrite length_take, length_fmap. lia. Defined.

Lemma correction_leaves_index_0_witness :
  ∃ loop' s',
    process_one_loop (collab := full_correction) (config 100 true)
      loop_10_13 s0 = (Ok loop', s') ∧
    inner_transformations loop' !! 0%nat = result_10_13 !! 0%nat.
Proof.
  destruct (correction_leaves_index_0 (collab := full_correction)
              (config 100 true) loop_10_13 s0)
    as (loop' & s' & r1 & Hrun & _ & Hzero & _);
    [evaluate | evaluate | apply corrector_length | apply corrector_length |].
  exists loop', s'. split; [exact Hrun | exact Hzero].
Defined.

Lemma correction_disabled_keeps_result_t_witness :
  process_one_loop (collab := full_correction) (config 100 false)
    loop_10_13 s0
  = (Ok {| inner_transformations := result_10_13;
           inner_t_fitness_scores := [11; 12; 13; 14];
           edge_frames_indexes := (10, 13);
           edge_frames := (10, 13);
           edge_keypoints := 10;
           edge_transformations := (translation 5, translation 7) |},
     {| loops := [];
        trace := [ev_Iter 10 13 1; ev_filter; ev_sac_align; ev_icp_align;
                  ev_vizualization] |}).
Proof.
  apply (correction_disabled_keeps_result_t (collab := full_correction)
           (config 100 false) loop_10_13 s0); evaluate.
Defined.

(** With a frame source that leaves [edges_to] out, ten loops meet ten
    edge frames and preparation throws; with one that includes it, eleven
    edge frames go on to alignment. *)
Lemma edge_count_checked_before_alignment_witness :
  prepare_all_loops (collab := exclusive_source) (config 100 true) 11 s0
  = (Throw edge_count_mismatch,
     {| loops := loops_of_ten 10; trace := [ev_Iter 0 100 10] |}) ∧
  trace (prepare_all_loops (collab := full_correction) (config 100 true)
           11 s0).2
  = [ev_Iter 0 100 10; ev_filter; ev_sac_align; ev_icp_align].
Proof.
  split.
  - apply (edge_count_checked_before_alignment (collab := exclusive_source)
             (config 100 true) 11 s0 _ (frames_between false 0 100 10));
      evaluate.
  - destruct (edge_count_checked_before_alignment
                (collab := full_correction) (config 100 true) 11 s0
                {| loops := loops_of_ten 10; trace := [ev_Iter 0 100 10] |}
                (frames_between true 0 100 10))
      as (_ & _ & Hgo & _); [evaluate |].
    destruct Hgo as [-> ->]; [evaluate |]. reflexivity.
Defined.

(** C8 as stated fails: the first corrector returns 2 transformations for
    the 4 of the loop, and the Loop Processor returns the Loop with
    index 1 corrected by both passes, indices 2 and 3 by the second only,
    and no error. *)
Lemma short_correction_accepted :
  length (cor_correct (corrector 1 2 [10; 11; 12; 13] [10; 11; 12; 13]
                                 result_10_13 10)) = 2%nat ∧
  length result_10_13 = 4%nat ∧
  process_one_loop (collab := short_correction) (config 100 true)
    loop_10_13 s0
  = (Ok {| inner_transformations :=
             [[[0; -1; 0; 0]; [1; 0; 0; 15]; [0; 0; 1; 0]; [0; 0; 0; 1]];
              [[0; -1; 0; 3]; [1; 0; 0; 16]; [0; 0; 1; 0]; [0; 0; 0; 1]];
              [[0; -1; 0; 2]; [1; 0; 0; 17]; [0; 0; 1; 0]; [0; 0; 0; 1]];
              [[0; -1; 0; 2]; [1; 0; 0; 18]; [0; 0; 1; 0]; [0; 0; 0; 1]]];
           inner_t_fitness_scores := [11; 12; 13; 14];
           edge_frames_indexes := (10, 13);
           edge_frames := (10, 13);
           edge_keypoints := 10;
           edge_transformations := (translation 5, translation 7) |},
     {| loops := [];
        trace := [ev_Iter 10 13 1; ev_filter; ev_sac_align; ev_icp_align;
                  ev_elch_correct; ev_lum_correct; ev_vizualization] |}).
Proof. repeat split. Qed.

Lemma correction_length_not_checked_witness :
  ∃ loop' s',
    process_one_loop (collab := short_correction) (config 100 true)
      loop_10_13 s0 = (Ok loop', s') ∧
    length (inner_transformations loop') = 4%nat.
Proof.
  destruct (correction_length_not_checked (collab := short_correction)
              (config 100 true) loop_10_13 s0)
    as (r1 & Hlen1 & _ & _ & _ & Hsecond); [evaluate .. |].
  destruct Hsecond as (loop' & s' & Hrun & Hlen & _).
  { simpl. rewrite length_take, length_fmap. lia. }
  exists loop', s'. split; [exact Hrun | exact Hlen].
Defined.

(** C10 as stated fails.
    - With loop_size = -1 and read_step = 1, [read_loop_size] is
      4294967295, so that over the range 1 .. 100
      read_to - read_from = 99 is less than it; the first candidate edge
      1 + 4294967295 wraps around to 0 <= 100, the Loop (1, 0) is
      created, [front()] is in bounds, and loop preparation ends with the
      consistency error of line 87.
    - With loop_size = 700000000 and read_step = 3, [read_loop_size] is
      2100000000, and over the range 2200000000 .. 2200000050
      read_to - read_from = 50 is less than it; the first candidate edge
      wraps around to 5032704, two Loops are created, [front()] is in
      bounds, and loop preparation ends with the same error. *)
Lemma wrapped_edge_front_in_bounds :
  read_to negative_size_config - read_from negative_size_config
    < to_uint (loop_size negative_size_config
               * read_step negative_size_config) ∧
  prepare_all_loops (collab := full_correction) negative_size_config 2 s0
  = (Throw edge_count_mismatch,
     {| loops := [fresh_Loop (collab := full_correction) 1 0];
        trace := [ev_Iter 1 0 4294967295] |}) ∧
  read_to wrapping_config - read_from wrapping_config
    < loop_size wrapping_config * read_step wrapping_config ∧
  prepare_all_loops (collab := full_correction) wrapping_config 3 s0
  = (Throw edge_count_mismatch,
     {| loops := [fresh_Loop (collab := full_correction)
                    2200000000 5032704;
                  fresh_Loop (collab := full_correction)
                    5032704 2105032704];
        trace := [ev_Iter 2200000000 2105032704 2100000000] |}).
Proof. repeat split; (reflexivity || discriminate). Qed.

(** With stride 3 the loops have 30 frame indices: the range 5 .. 20 is
    too short for one, the range 5 .. 100 is not. *)
Lemma fixed_mode_front_of_empty_loops_witness :
  prepare_all_loops (collab := full_correction) (config 5 true) 1 s0
    = (Undefined, s0) ∧
  prepare_all_loops (collab := full_correction) (strided_config 20) 1 s0
    = (Undefined, s0) ∧
  (select_edges (collab := full_correction) (strided_config 100) 4 s0).1
    ≠ Undefined ∧
  ∃ edge_frames l0 ls s',
    select_edges (collab := full_correction) (strided_config 100) 4 s0
      = (Ok edge_frames, s') ∧
    loops s' = l0 :: ls.
Proof.
  destruct (fixed_mode_front_of_empty_loops (collab := full_correction)
              (config 5 true) 1 s0) as [Hshort _]; [evaluate .. |].
  destruct (fixed_mode_front_of_empty_loops (collab := full_correction)
              (strided_config 20) 1 s0) as [Hshort' _]; [evaluate .. |].
  destruct (fixed_mode_front_of_empty_loops (collab := full_correction)
              (strided_config 100) 4 s0) as [_ Hlong]; [evaluate .. |].
  destruct Hlong as [Hdefined Hfront]; [evaluate |].
  split; [apply Hshort; evaluate |]. split; [apply Hshort'; evaluate |].
  split; [exact Hdefined | apply Hfront; evaluate].
Defined.

(** ** The further properties on the synthetic instance *)

Ltac evaluate_list :=
  simpl; repeat first [lia | reflexivity | discriminate | constructor].

Lemma zero_read_loop_size_throws_witness :
  read_loop_size wrapped_size_config = 0 ∧
  prepare_all_loops (collab := full_correction) wrapped_size_config 1 s0
  = (Throw (invalid_argument "Loop loop_size == 0"), s0).
Proof.
  split; [reflexivity |].
  apply (zero_read_loop_size_throws (collab := full_correction)
           wrapped_size_config 1 s0); evaluate.
Defined.

Lemma select_edges_contiguous_witness :
  contiguous
    (loops (select_edges (collab := full_correction) (config 100 true)
              11 s0).2) ∧
  contiguous
    (loops (select_edges (collab := full_correction) (balanced_config 7)
              0 s0).2).
Proof.
  split.
  - apply (select_edges_contiguous (collab := full_correction)
             (config 100 true) 11 s0); reflexivity.
  - apply (select_edges_contiguous (collab := full_correction)
             (balanced_config 7) 0 s0); reflexivity.
Defined.

Lemma balanced_mode_one_frame_per_edge_witness :
  select_edges (collab := full_correction) (balanced_config 7) 0 s0
  = (Ok [3; 5; 7],
     {| loops := [fresh_Loop (collab := full_correction) 3 5;
                  fresh_Loop (collab := full_correction) 5 7];
        trace := [ev_Iter 3 7 1; ev_balance] |}) ∧
  prepare_all_loops (collab := full_correction) (balanced_config 7) 0 s0
  = align_edges (collab := full_correction) [3; 5; 7]
      {| loops := [fresh_Loop (collab := full_correction) 3 5;
                   fresh_Loop (collab := full_correction) 5 7];
         trace := [ev_Iter 3 7 1; ev_balance] |}.
Proof.
  destruct (balanced_mode_one_frame_per_edge (collab := full_correction)
              (balanced_config 7) 0 s0)
    as (Hsel & _ & _ & Hgo);
    [reflexivity | evaluate_list | evaluate_list
     | intros _; reflexivity | evaluate | evaluate | evaluate
     | evaluate_list |].
  split; [exact Hsel |]. apply Hgo; [reflexivity | discriminate].
Defined.

Lemma balanced_mode_loops_repeated_witness :
  balanced_mode_loops (collab := full_correction) (balanced_config 7)
    ([0] ++ 2 :: 2 :: [4]) s0
  = (Throw (invalid_argument "Loop loop_size == 0"),
     {| loops := [fresh_Loop (collab := full_correction) 3 5];
        trace := [] |}).
Proof.
  apply (balanced_mode_loops_repeated (collab := full_correction)
           (balanced_config 7) 2 2 [4] [0] s0); evaluate_list.
Defined.

Lemma balanced_mode_frames_after_last_edge_witness :
  length (frames_between true 3 8 1) = 6%nat ∧
  every_nth (frames_between true 3 8 1) 2 = [0; 2; 4] ∧
  (prepare_all_loops (collab := full_correction) (balanced_config 8)
     0 s0).1 = Undefined.
Proof.
  split; [reflexivity |]. split; [reflexivity |].
  apply (balanced_mode_frames_after_last_edge (collab := full_correction)
           (balanced_config 8) 0 s0);
    first [reflexivity | discriminate | evaluate_list].
Defined.

Lemma balanced_mode_empty_source_throws_witness :
  frames_between true 3 2 1 = [] ∧
  ∃ e, (prepare_all_loops (collab := full_correction) (balanced_config 2)
          0 s0).1 = Throw e.
Proof.
  split; [reflexivity |].
  apply (balanced_mode_empty_source_throws (collab := full_correction)
           (balanced_config 2) 0 s0); reflexivity.
Defined.

(** Two edge frames for two loops: the first loop gets its edge data,
    the second one is left as constructed. *)
Lemma align_edges_assigns_first_loops_witness :
  ∃ s',
    align_edges (collab := full_correction) [0; 10] two_loops
      = (Ok (), s') ∧
    loops s' !! 0%nat
      = Some {| inner_transformations := [];
                inner_t_fitness_scores := [];
                edge_frames_indexes := (0, 10);
                edge_frames := (0, 10);
                edge_keypoints := 0;
                edge_transformations :=
                  (mat_mul (mat_mul I4 quarter_turn)
                           (mat_mul I4 (translation 0)),
                   mat_mul (mat_mul I4 quarter_turn)
                           (mat_mul I4 (translation 10))) |} ∧
    loops s' !! 1%nat = Some (fresh_Loop (collab := full_correction) 10 20).
Proof.
  destruct (align_edges_assigns_first_loops (collab := full_correction)
              [0; 10] two_loops)
    as (s' & Hrun & _ & _ & Hin & Hout); [evaluate .. |].
  exists s'. split; [exact Hrun |]. split.
  - destruct (Hin 0%nat)
      as (l & f1 & f2 & a1 & b1 & a2 & b2 & kj & Hl & Hf1 & Hf2 & Ha1 & Hb1
          & Ha2 & Hb2 & Hkj & Hs'); [evaluate |].
    rewrite Hs'.
    injection Hl as <-. injection Hf1 as <-. injection Hf2 as <-.
    injection Ha1 as <-. injection Hb1 as <-. injection Ha2 as <-.
    injection Hb2 as <-. injection Hkj as <-. reflexivity.
  - rewrite Hout by evaluate. reflexivity.
Defined.

Lemma align_edges_more_transformations_than_loops_witness :
  (align_edges (collab := full_correction) [0; 10; 20; 30] two_loops).1
  = Undefined.
Proof.
  apply (align_edges_more_transformations_than_loops
           (collab := full_correction) [0; 10; 20; 30] two_loops).
  evaluate.
Defined.

Lemma process_all_loops_replaces_every_loop_witness :
  ∃ finished,
    process_all_loops (collab := picky_correction) (config 100 false)
      three_loops
    = (Ok (),
       {| loops := finished;
          trace := [ev_Iter 10 13 1; ev_filter; ev_sac_align; ev_icp_align;
                    ev_vizualization;
                    ev_Iter 20 22 1; ev_filter; ev_sac_align; ev_icp_align;
                    ev_vizualization;
                    ev_Iter 30 31 1; ev_filter; ev_sac_align; ev_icp_align;
                    ev_vizualization;
                    ev_loops_data_vizualization] |}) ∧
    inner_t_fitness_scores <$> finished
      = [[11; 12; 13; 14]; [21; 22; 23]; [31; 32]].
Proof.
  eexists. split.
  - apply (process_all_loops_replaces_every_loop
             (collab := picky_correction) (config 100 false) three_loops).
    repeat (constructor; [vm_compute; reflexivity |]). constructor.
  - reflexivity.
Defined.

Lemma process_all_loops_stops_at_first_failure_witness :
  (λ r, (r.1, inner_t_fitness_scores <$> loops r.2,
         last (trace r.2)))
    (process_all_loops (collab := picky_correction) (config 100 true)
       three_loops)
  = (Undefined, [[11; 12; 13; 14]; []; []], Some ev_elch_correct).
Proof.
  assert (∃ l', processed (collab := picky_correction) (config 100 true)
                  loop_10_13 = Ok l') as [l' Hl']
    by (vm_compute; eexists; reflexivity).
  rewrite (process_all_loops_stops_at_first_failure
             (collab := picky_correction) (config 100 true) three_loops
             [loop_10_13] [l'] [loop_30_31] loop_20_22);
    [| reflexivity | repeat constructor; exact Hl' | reflexivity].
  vm_compute in Hl'. injection Hl' as <-. reflexivity.
Defined.

Lemma perform_tsdf_meshing_hands_over_all_loops_witness :
  perform_tsdf_meshing draw_everything three_loops
  = (Ok [call_prepareVolume; call_redraw; call_visualizeCameraPoses [];
         call_calculateMesh; call_getPoligonMesh; call_visualizeMesh],
     three_loops).
Proof.
  apply (perform_tsdf_meshing_hands_over_all_loops draw_everything
           three_loops).
Defined.

Lemma process_one_loop_coarse_too_short_witness :
  process_one_loop (collab := eager_refinement) (config 100 true)
    loop_10_13 s0
  = (Undefined,
     {| loops := [];
        trace := [ev_Iter 10 13 1; ev_filter; ev_sac_align; ev_icp_align] |}).
Proof.
  apply (process_one_loop_coarse_too_short (collab := eager_refinement)
           (config 100 true) loop_10_13 s0).
  evaluate.
Defined.

Lemma process_one_loop_first_correction_too_long_witness :
  process_one_loop (collab := long_correction) (config 100 true)
    loop_10_13 s0
  = (Undefined,
     {| loops := [];
        trace := [ev_Iter 10 13 1; ev_filter; ev_sac_align; ev_icp_align;
                  ev_elch_correct] |}).
Proof.
  apply (process_one_loop_first_correction_too_long
           (collab := long_correction) (config 100 true) loop_10_13 s0);
    evaluate.
Defined.

Lemma process_one_loop_keeps_boundary_and_scores_witness :
  ∃ loop' s',
    process_one_loop (collab := full_correction) (config 100 true)
      loop_10_13 s0 = (Ok loop', s') ∧
    length (inner_transformations loop') = 4%nat ∧
    inner_t_fitness_scores loop' = [11; 12; 13; 14] ∧
    edge_transformations loop' = (translation 5, translation 7).
Proof.
  destruct (process_one_loop_keeps_boundary_and_scores
              (collab := full_correction) (config 100 true) loop_10_13 s0)
    as (loop' & Hrun & Hlen & Hscores & _ & _ & _ & Hedges);
    [evaluate | evaluate | evaluate | apply corrector_length |].
  exists loop'. eexists. split; [exact Hrun |].
  split; [exact Hlen |]. split; [exact Hscores | exact Hedges].
Defined.



(** A range that ends at the largest [uint]: the candidate edge wraps
    around and the loop goes on until the fuel is spent; the loops made
    all have length 10 on [uint]. *)
Lemma fixed_mode_every_loop_has_length_L_witness :
  (select_edges (collab := full_correction) (config 4294967295 true)
     5 s0).1 = OutOfFuel ∧
  Forall (λ l, to_uint ((edge_frames_indexes l).2
                        - (edge_frames_indexes l).1) = 10)
         (loops (select_edges (collab := full_correction)
                   (config 4294967295 true) 5 s0).2).
Proof.
  split; [reflexivity |].
  apply (fixed_mode_every_loop_has_length_L (collab := full_correction)
           (config 4294967295 true) 5 s0); reflexivity.
Defined.
